(** * split_articles.py: article splitting for .docx documents

    A shallow embedding of [split_articles.py] and the properties of its
    boundary detection, serializer and directory driver.

    Python strings are sequences of Unicode code points; they are modelled
    as lists of code points ([N]).  String literals of the source are
    written as UTF-8 Rocq strings and decoded with [u]. *)

From Stdlib Require Import ZArith NArith List String Ascii Bool Lia DecimalString Sorted.
From stdpp Require Import gmap.
Import ListNotations.

Local Open Scope nat_scope.

(** ** Strings of code points *)

Definition str := list N.

Fixpoint utf8_decode (bs : list N) : str :=
  match bs with
  | [] => []
  | b :: r =>
      if (b <? 0x80)%N then b :: utf8_decode r
      else if (b <? 0xE0)%N then
        match r with
        | c1 :: r' => ((b - 0xC0) * 64 + (c1 - 0x80))%N :: utf8_decode r'
        | _ => []
        end
      else if (b <? 0xF0)%N then
        match r with
        | c1 :: c2 :: r' =>
            ((b - 0xE0) * 4096 + (c1 - 0x80) * 64 + (c2 - 0x80))%N :: utf8_decode r'
        | _ => []
        end
      else
        match r with
        | c1 :: c2 :: c3 :: r' =>
            ((b - 0xF0) * 262144 + (c1 - 0x80) * 4096 + (c2 - 0x80) * 64 + (c3 - 0x80))%N
              :: utf8_decode r'
        | _ => []
        end
  end.

Definition u (s : string) : str :=
  utf8_decode (map N_of_ascii (list_ascii_of_string s)).
Arguments u s%_string.

Definition ch (a : ascii) : N := N_of_ascii a.
Arguments ch a%_char.

Definition str_eqb (a b : str) : bool := bool_decide (a = b).

(** *** Character classification

    CPython takes these from the Unicode character database.  The tables
    below cover ASCII, Latin-1 and the basic Cyrillic block for case mapping,
    the complete set of Unicode white space, the decimal digits of the Basic
    Multilingual Plane, and the letters of the Latin, Greek and Cyrillic
    blocks for word characters. *)

Definition in_range (lo hi c : N) : bool := ((lo <=? c) && (c <=? hi))%N.

(** [str.isspace] on one character, also the regex class [\s]. *)
Definition is_space (c : N) : bool :=
  in_range 0x09 0x0D c || in_range 0x1C 0x20 c || (c =? 0x85)%N || (c =? 0xA0)%N
  || (c =? 0x1680)%N || in_range 0x2000 0x200A c || in_range 0x2028 0x2029 c
  || (c =? 0x202F)%N || (c =? 0x205F)%N || (c =? 0x3000)%N.

Definition digit_blocks : list N :=
  [ 0x30; 0x660; 0x6F0; 0x7C0; 0x966; 0x9E6; 0xA66; 0xAE6; 0xB66; 0xBE6; 0xC66;
    0xCE6; 0xD66; 0xDE6; 0xE50; 0xED0; 0xF20; 0x1040; 0x1090; 0x17E0; 0x1810;
    0x1946; 0x19D0; 0x1A80; 0x1A90; 0x1B50; 0x1BB0; 0x1C40; 0x1C50; 0xA620;
    0xA8D0; 0xA900; 0xA9D0; 0xA9F0; 0xAA50; 0xABF0; 0xFF10 ]%N.

(** The regex class [\d]: a decimal digit (category Nd). *)
Definition is_digit (c : N) : bool :=
  existsb (fun b => in_range b (b + 9) c) digit_blocks.

(** The regex class [\w]: alphanumeric or underscore. *)
Definition is_word (c : N) : bool :=
  in_range 0x41 0x5A c || in_range 0x61 0x7A c || (c =? 0x5F)%N || is_digit c
  || (c =? 0xAA)%N || (c =? 0xB5)%N || (c =? 0xBA)%N
  || in_range 0xC0 0xD6 c || in_range 0xD8 0xF6 c || in_range 0xF8 0x24F c
  || in_range 0x370 0x373 c || in_range 0x376 0x377 c || in_range 0x37B 0x37D c
  || (c =? 0x37F)%N || (c =? 0x386)%N || in_range 0x388 0x3FF c && negb (c =? 0x3F6)%N
  || in_range 0x400 0x481 c || in_range 0x48A 0x52F c.

(** [str.lower] on one character. *)
Definition lower (c : N) : N :=
  if in_range 0x41 0x5A c then (c + 32)%N
  else if in_range 0xC0 0xDE c && negb (c =? 0xD7)%N then (c + 32)%N
  else if in_range 0x400 0x40F c then (c + 80)%N
  else if in_range 0x410 0x42F c then (c + 32)%N
  else c.

Definition upper (c : N) : N :=
  if in_range 0x61 0x7A c then (c - 32)%N
  else if in_range 0xE0 0xFE c && negb (c =? 0xF7)%N then (c - 32)%N
  else if in_range 0x450 0x45F c then (c - 80)%N
  else if in_range 0x430 0x44F c then (c - 32)%N
  else c.

Definition str_lower (s : str) : str := map lower s.

(** *** String methods used by the script *)

(** [sep.join(parts)] *)
Fixpoint join (sep : str) (parts : list str) : str :=
  match parts with
  | [] => []
  | [p] => p
  | p :: rest => p ++ sep ++ join sep rest
  end.

Fixpoint lstrip (s : str) : str :=
  match s with
  | c :: s' => if is_space c then lstrip s' else s
  | [] => []
  end.

Definition rstrip (s : str) : str := rev (lstrip (rev s)).

(** [s.strip()] *)
Definition strip (s : str) : str := rstrip (lstrip s).

Fixpoint prefixb (p s : str) : bool :=
  match p, s with
  | [], _ => true
  | a :: p', b :: s' => (a =? b)%N && prefixb p' s'
  | _ :: _, [] => false
  end.

(** [needle in s] *)
Fixpoint contains (needle s : str) : bool :=
  prefixb needle s ||
  match s with
  | [] => false
  | _ :: s' => contains needle s'
  end.

Definition NL : N := 0x0A.

(** [s.split("\n", 1)[0]] *)
Fixpoint first_split_nl (s : str) : str :=
  match s with
  | [] => []
  | c :: s' => if (c =? NL)%N then [] else c :: first_split_nl s'
  end.

(** Line boundaries of [str.splitlines]. *)
Definition is_linebreak (c : N) : bool :=
  in_range 0x0A 0x0D c || in_range 0x1C 0x1E c || (c =? 0x85)%N
  || in_range 0x2028 0x2029 c.

(** [s.splitlines()]; [after_cr] tells that the previous character was a
    carriage return, so that a line feed right after it ends no new line. *)
Fixpoint splitlines_aux (cur : str) (after_cr : bool) (s : str) : list str :=
  match s with
  | [] => match cur with [] => [] | _ => [rev cur] end
  | c :: s' =>
      if after_cr && (c =? 0x0A)%N then splitlines_aux cur false s'
      else if is_linebreak c then rev cur :: splitlines_aux [] (c =? 0x0D)%N s'
      else splitlines_aux (c :: cur) false s'
  end.

Definition splitlines (s : str) : list str := splitlines_aux [] false s.

(** [l[a:b]] for [0 <= a], [0 <= b] *)
Definition slice {A : Type} (l : list A) (a b : nat) : list A := firstn (b - a) (skipn a l).

(** [str(n)] for an integer *)
Definition str_of_Z (z : Z) : str :=
  u (NilZero.string_of_int (Z.to_int z)).

(** ** The regular expressions of Python's [re] module

    The script compiles its patterns with [re.compile] and matches with
    [re.search] and [finditer].  The engine below covers the syntax the
    script's own patterns use: literals, [.], [^], [$], the escapes
    [\s \S \d \D \w \W \b \B \n \r \t \f \v \a] and escaped punctuation,
    character sets, greedy [* + ?], alternation, capturing and
    non-capturing groups, and the global flag groups [(?i)], [(?m)], [(?s)].
    [re_compile] answers [None] where [re.compile] raises [re.error]; it also
    answers [None] on syntax outside this list.  A global flag group is
    accepted anywhere in a pattern, as CPython does up to version 3.10. *)

Record flags := { IGNORECASE : bool; MULTILINE : bool; DOTALL : bool }.

Definition flags_or (a b : flags) : flags :=
  {| IGNORECASE := IGNORECASE a || IGNORECASE b;
     MULTILINE := MULTILINE a || MULTILINE b;
     DOTALL := DOTALL a || DOTALL b |}.

Definition no_flags : flags := {| IGNORECASE := false; MULTILINE := false; DOTALL := false |}.
Definition re_I : flags := {| IGNORECASE := true; MULTILINE := false; DOTALL := false |}.
Definition re_M : flags := {| IGNORECASE := false; MULTILINE := true; DOTALL := false |}.
Definition re_S : flags := {| IGNORECASE := false; MULTILINE := false; DOTALL := true |}.

Inductive ccat := CatSpace | CatDigit | CatWord.

Inductive citem :=
| CChar (c : N)
| CRange (lo hi : N)
| CCat (k : ccat) (positive : bool).

Inductive re :=
| Empty
| Lit (c : N)
| AnyChar
| Class (negated : bool) (items : list citem)
| Bol
| Eol
| WordB (positive : bool)
| Seq (a b : re)
| Alt (a b : re)
| Star (a : re)
| Plus (a : re)
| Opt (a : re)
| Group (n : nat) (a : re).

Module Parser.

Definition is_alnum_ascii (c : N) : bool :=
  in_range 0x30 0x39 c || in_range 0x41 0x5A c || in_range 0x61 0x7A c.

Definition mk_seq (a b : re) : re :=
  match a, b with
  | Empty, _ => b
  | _, Empty => a
  | _, _ => Seq a b
  end.

(** A category escape, inside or outside a set. *)
Definition category_escape (c : N) : option citem :=
  if (c =? ch "s")%N then Some (CCat CatSpace true)
  else if (c =? ch "S")%N then Some (CCat CatSpace false)
  else if (c =? ch "d")%N then Some (CCat CatDigit true)
  else if (c =? ch "D")%N then Some (CCat CatDigit false)
  else if (c =? ch "w")%N then Some (CCat CatWord true)
  else if (c =? ch "W")%N then Some (CCat CatWord false)
  else None.

(** An escape that stands for one character. *)
Definition char_escape (c : N) : option N :=
  if (c =? ch "n")%N then Some 0x0A%N
  else if (c =? ch "r")%N then Some 0x0D%N
  else if (c =? ch "t")%N then Some 0x09%N
  else if (c =? ch "f")%N then Some 0x0C%N
  else if (c =? ch "v")%N then Some 0x0B%N
  else if (c =? ch "a")%N then Some 0x07%N
  else if is_alnum_ascii c then None
  else Some c.

(** The escape after a backslash, outside a set. *)
Definition parse_escape (c : N) : option re :=
  if (c =? ch "b")%N then Some (WordB true)
  else if (c =? ch "B")%N then Some (WordB false)
  else match category_escape c with
       | Some it => Some (Class false [it])
       | None => option_map Lit (char_escape c)
       end.

(** One member of a set: a character or a category. *)
Definition set_member (s : str) : option (citem * str) :=
  match s with
  | [] => None
  | c :: s' =>
      if (c =? ch "\")%N then
        match s' with
        | [] => None
        | e :: s'' =>
            if (e =? ch "b")%N then Some (CChar 0x08%N, s'')
            else match category_escape e with
                 | Some it => Some (it, s'')
                 | None => option_map (fun x => (CChar x, s'')) (char_escape e)
                 end
        end
      else Some (CChar c, s')
  end.

(** The members of a set up to the closing bracket; [first] allows a
    bracket as the first member. *)
Fixpoint parse_set (fuel : nat) (first : bool) (s : str) : option (list citem * str) :=
  match fuel with
  | 0 => None
  | S fuel' =>
      match s with
      | [] => None
      | c :: s' =>
          if (c =? ch "]")%N && negb first then Some ([], s')
          else
            match set_member s with
            | None => None
            | Some (it, s1) =>
                match s1 with
                | d :: s2 =>
                    if (d =? ch "-")%N then
                      match s2 with
                      | [] => None
                      | e :: s3 =>
                          if (e =? ch "]")%N then Some ([it; CChar (ch "-")], s3)
                          else
                            match it, set_member s2 with
                            | CChar lo, Some (CChar hi, s4) =>
                                if (hi <? lo)%N then None
                                else
                                  match parse_set fuel' false s4 with
                                  | Some (its, s5) => Some (CRange lo hi :: its, s5)
                                  | None => None
                                  end
                            | _, _ => None
                            end
                      end
                    else
                      match parse_set fuel' false s1 with
                      | Some (its, s5) => Some (it :: its, s5)
                      | None => None
                      end
                | [] => None
                end
            end
      end
  end.

(** The letters of a global flag group up to its closing parenthesis. *)
Fixpoint parse_flags (fuel : nat) (s : str) : option (flags * str) :=
  match fuel with
  | 0 => None
  | S fuel' =>
      match s with
      | [] => None
      | c :: s' =>
          if (c =? ch ")")%N then Some (no_flags, s')
          else
            let one :=
              if (c =? ch "i")%N then Some re_I
              else if (c =? ch "m")%N then Some re_M
              else if (c =? ch "s")%N then Some re_S
              else None in
            match one, parse_flags fuel' s' with
            | Some f, Some (fs, s'') => Some (flags_or f fs, s'')
            | _, _ => None
            end
      end
  end.

Definition is_quantifier (c : N) : bool :=
  (c =? ch "*")%N || (c =? ch "+")%N || (c =? ch "?")%N || (c =? ch "{")%N.

Definition repeatable (a : re) : bool :=
  match a with
  | Empty | Bol | Eol | WordB _ => false
  | _ => true
  end.

(** The quantifier, if any, after an item.  A second quantifier after it
    (lazy, possessive or repeated) is refused; [grouped] tells that the item
    is a parenthesised group, which can always be repeated. *)
Definition parse_quantifier (grouped : bool) (a : re) (s : str) : option (re * str) :=
  match s with
  | c :: s' =>
      if is_quantifier c then
        if (c =? ch "{")%N then None
        else if negb (grouped || repeatable a) then None
        else
          match s' with
          | d :: _ => if is_quantifier d then None
                      else Some (if (c =? ch "*")%N then Star a
                                 else if (c =? ch "+")%N then Plus a else Opt a, s')
          | [] => Some (if (c =? ch "*")%N then Star a
                        else if (c =? ch "+")%N then Plus a else Opt a, s')
          end
      else Some (a, s)
  | [] => Some (a, s)
  end.

(** The parser threads the number of the next capturing group and the
    global flags met so far. *)
Definition presult := (re * str * nat * flags)%type.

Fixpoint parse_alt (fuel : nat) (s : str) (g : nat) (fl : flags) : option presult :=
  match fuel with
  | 0 => None
  | S fuel' =>
      match parse_seq fuel' s g fl with
      | Some (a, s1, g1, fl1) =>
          match s1 with
          | c :: s2 =>
              if (c =? ch "|")%N then
                match parse_alt fuel' s2 g1 fl1 with
                | Some (b, s3, g3, fl3) => Some (Alt a b, s3, g3, fl3)
                | None => None
                end
              else Some (a, s1, g1, fl1)
          | [] => Some (a, s1, g1, fl1)
          end
      | None => None
      end
  end
with parse_seq (fuel : nat) (s : str) (g : nat) (fl : flags) : option presult :=
  match fuel with
  | 0 => None
  | S fuel' =>
      match s with
      | [] => Some (Empty, s, g, fl)
      | c :: _ =>
          if (c =? ch "|")%N || (c =? ch ")")%N then Some (Empty, s, g, fl)
          else
            match parse_piece fuel' s g fl with
            | Some (a, s1, g1, fl1) =>
                match parse_seq fuel' s1 g1 fl1 with
                | Some (b, s2, g2, fl2) => Some (mk_seq a b, s2, g2, fl2)
                | None => None
                end
            | None => None
            end
      end
  end
with parse_piece (fuel : nat) (s : str) (g : nat) (fl : flags) : option presult :=
  match fuel with
  | 0 => None
  | S fuel' =>
      let quantified_as (grouped : bool) (a : re) (s1 : str) (g1 : nat) (fl1 : flags)
          : option presult :=
        match parse_quantifier grouped a s1 with
        | Some (q, s2) => Some (q, s2, g1, fl1)
        | None => None
        end in
      let quantified := quantified_as false in
      match s with
      | [] => None
      | c :: s' =>
          if (c =? ch "(")%N then
            match s' with
            | q :: s'' =>
                if (q =? ch "?")%N then
                  match s'' with
                  | k :: s3 =>
                      if (k =? ch ":")%N then
                        match parse_alt fuel' s3 g fl with
                        | Some (a, close :: s4, g1, fl1) =>
                            if (close =? ch ")")%N
                            then quantified_as true a s4 g1 fl1
                            else None
                        | _ => None
                        end
                      else if (k =? ch ")")%N then None
                      else
                        match parse_flags (S (List.length s'')) s'' with
                        | Some (f, s4) => Some (Empty, s4, g, flags_or fl f)
                        | None => None
                        end
                  | [] => None
                  end
                else
                  match parse_alt fuel' s' (S g) fl with
                  | Some (a, close :: s4, g1, fl1) =>
                      if (close =? ch ")")%N
                      then quantified_as true (Group g a) s4 g1 fl1
                      else None
                  | _ => None
                  end
            | [] => None
            end
          else if (c =? ch "[")%N then
            match s' with
            | n :: s'' =>
                let '(neg, body) := if (n =? ch "^")%N then (true, s'') else (false, s') in
                match parse_set (S (List.length body)) true body with
                | Some (its, s4) => quantified (Class neg its) s4 g fl
                | None => None
                end
            | [] => None
            end
          else if (c =? ch "\")%N then
            match s' with
            | e :: s'' =>
                match parse_escape e with
                | Some a => quantified a s'' g fl
                | None => None
                end
            | [] => None
            end
          else if (c =? ch ".")%N then quantified AnyChar s' g fl
          else if (c =? ch "^")%N then quantified Bol s' g fl
          else if (c =? ch "$")%N then quantified Eol s' g fl
          else if is_quantifier c then None
          else quantified (Lit c) s' g fl
      end
  end.

End Parser.

(** A compiled pattern: the expression and the flags in force. *)
Record Pattern := { pat_re : re; pat_flags : flags }.

(** [re.compile(pattern, flags)] *)
Definition re_compile (pattern : str) (fl : flags) : option Pattern :=
  match Parser.parse_alt (3 * List.length pattern + 3) pattern 1 fl with
  | Some (r, [], _, fl') => Some {| pat_re := r; pat_flags := fl' |}
  | _ => None
  end.

(** *** Matching

    The matcher lists, for a start position, every end position the
    expression can reach, in the order in which a backtracking engine tries
    them: the first of them is the match Python reports.  [captures] maps
    group numbers to spans of the subject; a later binding hides an earlier
    one of the same group. *)

Definition captures := list (nat * (nat * nat)).

Fixpoint cap_lookup (n : nat) (caps : captures) : option (nat * nat) :=
  match caps with
  | [] => None
  | (m, sp) :: rest => if Nat.eqb n m then Some sp else cap_lookup n rest
  end.

(** A repetition of [step]: greedy, and an iteration that matches the
    empty string ends the loop.  [n] bounds the number of iterations by
    the number of characters left. *)
Fixpoint star_loop (step : nat -> captures -> list (nat * captures))
    (n : nat) (i : nat) (caps : captures) : list (nat * captures) :=
  match n with
  | 0 => [(i, caps)]
  | S n' =>
      flat_map (fun jc => if i <? fst jc then star_loop step n' (fst jc) (snd jc) else [])
               (step i caps)
      ++ [(i, caps)]
  end.

Section Matcher.
Variable fl : flags.
Variable subject : str.

Definition char_at (i : nat) : option N := nth_error subject i.

Definition char_before (i : nat) : option N :=
  match i with
  | 0 => None
  | S j => nth_error subject j
  end.

Definition lit_eq (p c : N) : bool :=
  if IGNORECASE fl then (lower p =? lower c)%N else (p =? c)%N.

Definition in_cat (k : ccat) (c : N) : bool :=
  match k with
  | CatSpace => is_space c
  | CatDigit => is_digit c
  | CatWord => is_word c
  end.

Definition item_has (it : citem) (c : N) : bool :=
  match it with
  | CChar p => (p =? c)%N
  | CRange lo hi => in_range lo hi c
  | CCat k positive => Bool.eqb (in_cat k c) positive
  end.

Definition set_has (items : list citem) (c : N) : bool :=
  existsb (fun it => item_has it c) items.

Definition class_has (negated : bool) (items : list citem) (c : N) : bool :=
  let hit :=
    if IGNORECASE fl
    then set_has items c || set_has items (lower c) || set_has items (upper c)
    else set_has items c in
  xorb negated hit.

Definition on_char (i : nat) (caps : captures) (ok : N -> bool) : list (nat * captures) :=
  match char_at i with
  | Some c => if ok c then [(S i, caps)] else []
  | None => []
  end.

Definition at_bol (i : nat) : bool :=
  match char_before i with
  | None => true
  | Some c => MULTILINE fl && (c =? NL)%N
  end.

Definition at_eol (i : nat) : bool :=
  match char_at i with
  | None => true
  | Some c => (c =? NL)%N && (MULTILINE fl || (S i =? List.length subject))
  end.

Definition wordness (o : option N) : bool :=
  match o with
  | Some c => is_word c
  | None => false
  end.

Definition at_word_boundary (i : nat) : bool :=
  xorb (wordness (char_before i)) (wordness (char_at i)).

Definition guard (b : bool) (i : nat) (caps : captures) : list (nat * captures) :=
  if b then [(i, caps)] else [].

Fixpoint ends (r : re) (i : nat) (caps : captures) : list (nat * captures) :=
  match r with
  | Empty => [(i, caps)]
  | Lit p => on_char i caps (lit_eq p)
  | AnyChar => on_char i caps (fun c => DOTALL fl || negb (c =? NL)%N)
  | Class negated items => on_char i caps (class_has negated items)
  | Bol => guard (at_bol i) i caps
  | Eol => guard (at_eol i) i caps
  | WordB positive => guard (Bool.eqb (at_word_boundary i) positive) i caps
  | Seq a b => flat_map (fun jc => ends b (fst jc) (snd jc)) (ends a i caps)
  | Alt a b => ends a i caps ++ ends b i caps
  | Star a => star_loop (ends a) (S (List.length subject - i)) i caps
  | Plus a =>
      flat_map (fun jc => star_loop (ends a) (S (List.length subject - fst jc))
                                    (fst jc) (snd jc))
               (ends a i caps)
  | Opt a => ends a i caps ++ [(i, caps)]
  | Group n a => map (fun jc => (fst jc, (n, (i, fst jc)) :: snd jc)) (ends a i caps)
  end.

End Matcher.

(** A match object: [m.start()], [m.end()] and the groups. *)
Record Match := { m_start : nat; m_end : nat; m_caps : captures }.

(** [m.group(n)] on the subject [s], for a group that took part. *)
Definition m_group (s : str) (m : Match) (n : nat) : option str :=
  match cap_lookup n (m_caps m) with
  | Some (a, b) => Some (slice s a b)
  | None => None
  end.

(** The match that starts at [i], if any; with [must_advance] an empty
    match is passed over. *)
Definition match_at (p : Pattern) (s : str) (must_advance : bool) (i : nat) : option Match :=
  match List.filter (fun jc => negb must_advance || (i <? fst jc))
                    (ends (pat_flags p) s (pat_re p) i []) with
  | (j, c) :: _ => Some {| m_start := i; m_end := j; m_caps := c |}
  | [] => None
  end.

Fixpoint search_from (p : Pattern) (s : str) (n i : nat) : option Match :=
  match n with
  | 0 => None
  | S n' =>
      match match_at p s false i with
      | Some m => Some m
      | None => search_from p s n' (S i)
      end
  end.

(** [pattern.search(s)]: the leftmost match. *)
Definition re_search (p : Pattern) (s : str) : option Match :=
  search_from p s (S (List.length s)) 0.

(** [pattern.finditer(s)]: the scan tries the positions [i], [i+1], ... in
    turn, [n] of them; positions below [lo], the end of the last match,
    are skipped.  After an empty match the engine tries the same position
    again for a match that is not empty. *)
Fixpoint scan (p : Pattern) (s : str) (n i lo : nat) : list Match :=
  match n with
  | 0 => []
  | S n' =>
      if i <? lo then scan p s n' (S i) lo
      else
        match match_at p s false i with
        | None => scan p s n' (S i) lo
        | Some m =>
            if m_end m =? i then
              match match_at p s true i with
              | None => m :: scan p s n' (S i) lo
              | Some m' => m :: m' :: scan p s n' (S i) (m_end m')
              end
            else m :: scan p s n' (S i) (m_end m)
        end
  end.

Definition re_finditer (p : Pattern) (s : str) : list Match :=
  scan p s (S (List.length s)) 0 0.

(** ** Exceptions and values *)

Inductive exn :=
| ReError      (* re.error, raised by re.compile *)
| LoadError    (* Document(path) cannot open or parse the file *)
| IndexError
| WriteError.  (* the output file cannot be opened *)

Inductive Exc (A : Type) :=
| Ok (a : A)
| Raise (e : exn).
Arguments Ok {A} a.
Arguments Raise {A} e.

Definition ebind {A B : Type} (c : Exc A) (k : A -> Exc B) : Exc B :=
  match c with
  | Ok a => k a
  | Raise e => Raise e
  end.

Declare Scope exc_scope.
Delimit Scope exc_scope with exc.
Notation "x <- c ;; k" := (ebind c (fun x => k))
  (at level 100, c at next level, right associativity) : exc_scope.

(** The values the script puts into its dictionaries and into JSON. *)
#[warnings="-register-all"]
Inductive JVal :=
| JStr (s : str)
| JInt (z : Z)
| JBool (b : bool)
| JObj (fields : list (str * JVal)).

(** ** The document, as python-docx presents it *)

Record Run := { run_text : str; run_bold : option bool }.

Record DocxParagraph := {
  dp_text : str;               (* p.text *)
  dp_style_name : option str;  (* p.style.name, which may be None *)
  dp_runs : list Run           (* p.runs *)
}.

Definition Doc := list DocxParagraph.  (* doc.paragraphs *)

(** A paragraph record: the dictionary with keys "text", "style", "is_bold". *)
Record Paragraph := { p_text : str; p_style : option str; p_is_bold : bool }.

(** An article: the dictionary with keys "header" and "text", followed by
    the entries of [a_extra] in insertion order. *)
Record Article := { a_header : str; a_text : str; a_extra : list (str * JVal) }.

Definition items (a : Article) : list (str * JVal) :=
  (u "header", JStr (a_header a)) :: (u "text", JStr (a_text a)) :: a_extra a.

(** ** The script *)

Definition DEFAULT_PATTERNS : list str :=
  [ u "(?m)^(Статья|СТАТЬЯ|Стаття|Article)\s+№?\s*\d+[\s\.\-–—:]";
    u "(?m)^Ст\.\?\s*\d+[\s\.\-–—:]";
    u "(?m)^Статья\s+№?\s*\d+\b" ].

Definition run_is_bold (r : Run) : bool :=
  match run_bold r with
  | Some b => b
  | None => false
  end.

Definition nonempty (s : str) : bool :=
  match s with
  | [] => false
  | _ :: _ => true
  end.

Fixpoint paragraphs_to_text (doc : Doc) : list Paragraph :=
  match doc with
  | [] => []
  | p :: rest =>
      let text := strip (dp_text p) in
      if nonempty text then
        {| p_text := text;
           p_style := dp_style_name p;
           p_is_bold :=
             existsb run_is_bold
                     (List.filter (fun r => nonempty (strip (run_text r))) (dp_runs p)) |}
        :: paragraphs_to_text rest
      else paragraphs_to_text rest
  end.

Definition re_IM : flags := flags_or re_I re_M.

Definition compile_or_raise (pattern : str) (fl : flags) : Exc Pattern :=
  match re_compile pattern fl with
  | Some p => Ok p
  | None => Raise ReError
  end.

Definition found (m : option Match) : bool :=
  match m with
  | Some _ => true
  | None => false
  end.

(** The pattern literals of the three [re.search] calls of the script. *)
Definition heading_word_src : str := u "статья|стаття|article".
Definition bold_heading_src : str := u "^\s*(Статья|Стаття|Article)\s+№?\s*\d+".
Definition article_number_src : str := u "(?:Статья|Стаття|Article)\s+№?\s*(\d+)".

Definition compiled (src : str) (fl : flags) : Pattern :=
  match re_compile src fl with
  | Some p => p
  | None => {| pat_re := Empty; pat_flags := fl |}
  end.

(** What [re.compile] makes of them under [re.I]. *)
Definition heading_word : Pattern := Eval vm_compute in compiled heading_word_src re_I.
Definition bold_heading : Pattern := Eval vm_compute in compiled bold_heading_src re_I.
Definition article_number : Pattern := Eval vm_compute in compiled article_number_src re_I.

(** The source of the alternation of the paragraph tier. *)
Definition paragraph_pattern_source (patterns : list str) : str :=
  join (u "|") (map (fun p => u "(?:" ++ p ++ u ")") patterns).

Definition style_has_heading (p : Paragraph) : bool :=
  match p_style p with
  | Some s => nonempty s && contains (u "heading") (str_lower s)
  | None => false
  end.

(** The three tests of the loop body of [split_by_paragraph_markers]. *)
Definition is_boundary (pattern : Pattern) (p : Paragraph) : bool :=
  let txt := p_text p in
  if style_has_heading p && found (re_search heading_word txt) then true
  else if p_is_bold p && found (re_search bold_heading txt) then true
  else found (re_search pattern txt).

(** The loop over [enumerate(paras)], from index [idx] on. *)
Fixpoint boundaries_from (pattern : Pattern) (idx : nat) (paras : list Paragraph) : list nat :=
  match paras with
  | [] => []
  | p :: rest =>
      if is_boundary pattern p then idx :: boundaries_from pattern (S idx) rest
      else boundaries_from pattern (S idx) rest
  end.

(** The loop over [enumerate(boundaries)]. *)
Fixpoint paragraph_articles (paras : list Paragraph) (boundaries : list nat)
    : Exc (list Article) :=
  match boundaries with
  | [] => Ok []
  | start_idx :: rest =>
      let end_idx := match rest with
                     | next :: _ => next
                     | [] => List.length paras
                     end in
      let chunk_text := strip (join [NL] (map p_text (slice paras start_idx end_idx))) in
      match nth_error paras start_idx with
      | None => Raise IndexError
      | Some p =>
          let header := first_split_nl (p_text p) in
          (articles <- paragraph_articles paras rest ;;
           Ok ({| a_header := header; a_text := chunk_text;
                  a_extra := [ (u "start_para", JInt (Z.of_nat start_idx));
                               (u "end_para", JInt (Z.of_nat end_idx - 1)) ] |}
               :: articles))%exc
      end
  end.

Definition split_by_paragraph_markers (paras : list Paragraph) (patterns : list str)
    : Exc (option (list Article)) :=
  (pattern <- compile_or_raise (paragraph_pattern_source patterns) re_IM ;;
   let boundaries := boundaries_from pattern 0 paras in
   match boundaries with
   | [] => Ok None
   | _ :: _ => articles <- paragraph_articles paras boundaries ;; Ok (Some articles)
   end)%exc.

(** The source of the alternation of the text tier. *)
Definition text_pattern_source (patterns : list str) : str :=
  u "(" ++ join (u ")|(") patterns ++ u ")".

(** The loop over [enumerate(matches)], on the starts of the matches. *)
Fixpoint text_articles (full_text : str) (starts : list nat) : list Article :=
  match starts with
  | [] => []
  | start :: rest =>
      let end_ := match rest with
                  | next :: _ => next
                  | [] => List.length full_text
                  end in
      let chunk := strip (slice full_text start end_) in
      let header_line := match splitlines chunk with
                         | l :: _ => l
                         | [] => []
                         end in
      {| a_header := header_line; a_text := chunk;
         a_extra := [ (u "start_char", JInt (Z.of_nat start));
                      (u "end_char", JInt (Z.of_nat end_)) ] |}
      :: text_articles full_text rest
  end.

Definition split_by_text_regex (full_text : str) (patterns : list str)
    : Exc (option (list Article)) :=
  (pattern <- compile_or_raise (text_pattern_source patterns) re_IM ;;
   let matches := re_finditer pattern full_text in
   match matches with
   | [] => Ok None
   | _ :: _ => Ok (Some (text_articles full_text (map m_start matches)))
   end)%exc.

(** [if articles:] on a result that is [None] or a list. *)
Definition truthy (articles : option (list Article)) : bool :=
  match articles with
  | Some (_ :: _) => true
  | _ => false
  end.

Definition fallback_article (full_text : str) : Article :=
  {| a_header := u "(full document)"; a_text := full_text;
     a_extra := [ (u "fallback", JBool true) ] |}.

(** The files the script reads and writes, and its standard output.  Paths
    are plain strings; [w_docs] holds the documents [Document(path)] can
    load, [w_files] the text files by path, [w_denied] tells the paths that
    cannot be opened for writing. *)
Inductive Output :=
| PrintNoFiles (input_dir : str)
| PrintProcessing (name : str)
| PrintSaved (count : nat) (out_file : str)
| PrintError (name : str) (e : exn).

Record World := {
  w_glob : str -> list str;       (* input_dir.glob("*.docx") *)
  w_docs : gmap (list N) Doc;
  w_files : gmap (list N) (list N);
  w_denied : str -> bool;
  w_stdout : list Output
}.

(** [Document(path)] *)
Definition Document (w : World) (path : str) : Exc Doc :=
  match w_docs w !! path with
  | Some d => Ok d
  | None => Raise LoadError
  end.

Definition extract_articles_from_docx (w : World) (path : str) (patterns : list str)
    : Exc (list Article) :=
  (doc <- Document w path ;;
   let paras := paragraphs_to_text doc in
   articles <- split_by_paragraph_markers paras patterns ;;
   if truthy articles then Ok (default [] articles)
   else
     let full_text := join [NL] (map p_text paras) in
     articles <- split_by_text_regex full_text patterns ;;
     if truthy articles then Ok (default [] articles)
     else Ok [fallback_article full_text])%exc.

(** *** The serializer *)

Definition hex_digit (n : N) : N :=
  if (n <? 10)%N then (0x30 + n)%N else (0x61 + (n - 10))%N.

(** One character inside a JSON string, with [ensure_ascii=False]. *)
Definition json_escape_char (c : N) : str :=
  if (c =? 0x22)%N then [0x5C; 0x22]%N
  else if (c =? 0x5C)%N then u "\\"
  else if (c =? 0x0A)%N then u "\n"
  else if (c =? 0x0D)%N then u "\r"
  else if (c =? 0x09)%N then u "\t"
  else if (c =? 0x08)%N then u "\b"
  else if (c =? 0x0C)%N then u "\f"
  else if (c <? 0x20)%N then u "\u00" ++ [hex_digit (c / 16); hex_digit (c mod 16)]
  else [c].

Definition json_string (s : str) : str :=
  [0x22%N] ++ flat_map json_escape_char s ++ [0x22%N].

(** [json.dumps(v, ensure_ascii=False)] *)
Fixpoint json_dumps (v : JVal) : str :=
  match v with
  | JStr s => json_string s
  | JInt z => str_of_Z z
  | JBool b => if b then u "true" else u "false"
  | JObj fields =>
      u "{" ++ join (u ", ")
                    (map (fun kv : str * JVal =>
                            json_string (fst kv) ++ u ": " ++ json_dumps (snd kv))
                         fields)
        ++ u "}"
  end.

(** [Path(p).name] and [Path(p).stem] *)
Fixpoint path_name_aux (cur : str) (p : str) : str :=
  match p with
  | [] => rev cur
  | c :: p' => if (c =? ch "/")%N then path_name_aux [] p' else path_name_aux (c :: cur) p'
  end.

Definition path_name (p : str) : str := path_name_aux [] p.

(** The position of the last dot of [name], counted from [i]. *)
Fixpoint rfind_dot (name : str) (i : nat) (last : option nat) : option nat :=
  match name with
  | [] => last
  | c :: name' => rfind_dot name' (S i) (if (c =? ch ".")%N then Some i else last)
  end.

Definition path_stem (p : str) : str :=
  let name := path_name p in
  match rfind_dot name 0 None with
  | Some i => if (0 <? i) && (S i <? List.length name) then firstn i name else name
  | None => name
  end.

(** [dir / name] *)
Definition path_join (dir name : str) : str := dir ++ u "/" ++ name.

Definition meta_of (a : Article) : list (str * JVal) :=
  List.filter (fun kv => negb (str_eqb (fst kv) (u "header") || str_eqb (fst kv) (u "text")))
              (items a).

(** The number of the [i]-th article: the first group of the match of the
    header, or [str(i)]. *)
Definition number_of (i : nat) (a : Article) : str :=
  match re_search article_number (a_header a) with
  | Some m => default [] (m_group (a_header a) m 1)
  | None => str_of_Z (Z.of_nat i)
  end.

(** The dictionary [obj] of the [i]-th article. *)
Definition record_of (base source_path : str) (i : nat) (a : Article) : JVal :=
  let num := number_of i a in
  JObj [ (u "id", JStr (base ++ u "_article_" ++ num));
         (u "article_number", JStr num);
         (u "title", JStr (a_header a));
         (u "text", JStr (a_text a));
         (u "source_file", JStr source_path);
         (u "meta", JObj (meta_of a)) ].

(** The lines written for [enumerate(articles, start=i)]. *)
Fixpoint lines_from (base source_path : str) (i : nat) (articles : list Article) : str :=
  match articles with
  | [] => []
  | a :: rest =>
      json_dumps (record_of base source_path i a) ++ [NL]
      ++ lines_from base source_path (S i) rest
  end.

Definition out_file_of (source_path out_dir : str) : str :=
  path_join out_dir (path_stem source_path ++ u ".jsonl").

(** [open(path, "a")]: the content so far, empty for a new file. *)
Definition open_append (w : World) (path : str) : Exc str :=
  if w_denied w path then Raise WriteError
  else Ok (default [] (w_files w !! path)).

Definition with_file (w : World) (path content : str) : World :=
  {| w_glob := w_glob w; w_docs := w_docs w;
     w_files := <[path := content]> (w_files w);
     w_denied := w_denied w; w_stdout := w_stdout w |}.

Definition save_articles_jsonl (articles : list Article) (source_path out_dir : str)
    (w : World) : Exc (str * World) :=
  let base := path_stem source_path in
  let out_file := out_file_of source_path out_dir in
  (fh <- open_append w out_file ;;
   Ok (out_file, with_file w out_file (fh ++ lines_from base source_path 1 articles)))%exc.

(** *** The directory driver *)

Definition print (o : Output) (w : World) : World :=
  {| w_glob := w_glob w; w_docs := w_docs w; w_files := w_files w;
     w_denied := w_denied w; w_stdout := w_stdout w ++ [o] |}.

(** The body of the [try] in [process_dir]. *)
Definition process_file (p : str) (output_dir : str) (patterns : list str) (w : World)
    : Exc World :=
  (articles <- extract_articles_from_docx w p patterns ;;
   saved <- save_articles_jsonl articles p output_dir w ;;
   Ok (print (PrintSaved (List.length articles) (fst saved)) (snd saved)))%exc.

(** The [for] loop of [process_dir]: [except Exception] catches whatever
    the body raises. *)
Fixpoint process_files (files : list str) (output_dir : str) (patterns : list str)
    (w : World) : Exc World :=
  match files with
  | [] => Ok w
  | p :: rest =>
      let w1 := print (PrintProcessing (path_name p)) w in
      let w2 := match process_file p output_dir patterns w1 with
                | Ok w' => w'
                | Raise e => print (PrintError (path_name p) e) w1
                end in
      process_files rest output_dir patterns w2
  end.





(** The text the text tier and the fallback work on. *)
Definition full_text_of (doc : Doc) : str :=
  join [NL] (map p_text (paragraphs_to_text doc)).

(** ** Sample inputs *)

Definition docx_paragraph (text : string) (bold : bool) : DocxParagraph :=
  {| dp_text := u text; dp_style_name := Some (u "Normal");
     dp_runs := [ {| run_text := u text; run_bold := Some bold |} ] |}.

(** Three bold headings, each followed by a paragraph of body text. *)
Definition three_articles : Doc :=
  [ docx_paragraph "Статья 1. Title A" true; docx_paragraph "body a" false;
    docx_paragraph "Статья 2. Title B" true; docx_paragraph "body b" false;
    docx_paragraph "Статья 3. Title C" true; docx_paragraph "body c" false ].

(** Text in which no pattern finds a heading. *)
Definition plain_text : Doc :=
  [ docx_paragraph "Preamble" false; docx_paragraph "Some text." false ].

(** Headings whose keyword and number stand in separate paragraphs. *)
Definition broken_headings : Doc :=
  [ docx_paragraph "Статья" false; docx_paragraph "1. Первая" false;
    docx_paragraph "Статья" false; docx_paragraph "2. Вторая" false ].

(** An input directory with the single file [in/a.docx], holding [doc]. *)
Definition one_file (doc : Doc) : World :=
  {| w_glob := fun _ => [u "in/a.docx"];
     w_docs := {[ u "in/a.docx" := doc ]};
     w_files := ∅;
     w_denied := fun _ => false;
     w_stdout := [] |}.



(** ** Notions used to state the properties *)

(** The spans delimited by a list of boundaries: each runs from its
    boundary to the next one, the last to [stop]. *)
Fixpoint intervals (starts : list nat) (stop : nat) : list (nat * nat) :=
  match starts with
  | [] => []
  | b :: rest => (b, hd stop rest) :: intervals rest stop
  end.

(** The paragraph texts from index [b] to index [e], the latter excluded,
    joined with newlines. *)
Definition joined_paragraphs (paras : list Paragraph) (b e : nat) : str :=
  join [NL] (map p_text (slice paras b e)).

(** The first line of a text: what precedes its first newline. *)
Definition first_line (s : str) : str := first_split_nl s.

(** The integer an article records under [key], if any. *)
Fixpoint recorded_in (key : str) (entries : list (str * JVal)) : option Z :=
  match entries with
  | [] => None
  | (k, v) :: rest =>
      if str_eqb k key then match v with JInt z => Some z | _ => None end
      else recorded_in key rest
  end.

Definition recorded (key : string) (a : Article) : option Z :=
  recorded_in (u key) (a_extra a).

(** The recorded start and end of a span, of either tier. *)
Definition span_start (a : Article) : option Z :=
  match recorded "start_para" a with
  | Some z => Some z
  | None => recorded "start_char" a
  end.

Definition span_end (a : Article) : option Z :=
  match recorded "end_para" a with
  | Some z => Some z
  | None => recorded "end_char" a
  end.

(** A text that is not empty and has no white space at either end. *)
Definition trimmed (s : str) : Prop :=
  exists c t, s = c :: t /\ is_space c = false /\ is_space (List.last s c) = false.

(** A text without a newline character: it stays on one line. *)
Definition one_line (s : str) : Prop := Forall (fun c => c <> NL) s.

(** The number of newline characters of a text. *)
Definition count_newlines (s : str) : nat := count_occ N.eq_dec s NL.

(** What [re.compile] makes of the alternations of the default patterns. *)
Definition default_paragraph_pattern : Pattern :=
  Eval vm_compute in compiled (paragraph_pattern_source DEFAULT_PATTERNS) re_IM.

Definition default_text_pattern : Pattern :=
  Eval vm_compute in compiled (text_pattern_source DEFAULT_PATTERNS) re_IM.

(** A paragraph that opens with the abbreviated keyword. *)
Definition abbreviated_heading : Doc := [ docx_paragraph "Ст. 5. Общие положения" false ].

(** The positions a match that starts at [i] can end at. *)
Definition in_reach (s : str) (i j : nat) : Prop := i <= j /\ j <= Nat.max i (List.length s).

(** ** What an expression matches

    [Matches fl s r i j]: the expression [r] matches the subject [s] from
    position [i] to position [j].  A repetition is a chain of matches of
    its body, each of them over at least one character. *)

Inductive star_of (step : nat -> nat -> Prop) : nat -> nat -> Prop :=
| star_stop i : star_of step i i
| star_more i k j : step i k -> i < k -> star_of step k j -> star_of step i j.

Section Semantics.
Variables (fl : flags) (s : str).

Definition matches_char (ok : N -> bool) (i j : nat) : Prop :=
  exists c, char_at s i = Some c /\ ok c = true /\ j = S i.

Fixpoint Matches (r : re) (i j : nat) : Prop :=
  match r with
  | Empty => j = i
  | Lit p => matches_char (lit_eq fl p) i j
  | AnyChar => matches_char (fun c => DOTALL fl || negb (c =? NL)%N) i j
  | Class negated items => matches_char (class_has fl negated items) i j
  | Bol => at_bol fl s i = true /\ j = i
  | Eol => at_eol fl s i = true /\ j = i
  | WordB positive => Bool.eqb (at_word_boundary s i) positive = true /\ j = i
  | Seq a b => exists k, Matches a i k /\ Matches b k j
  | Alt a b => Matches a i j \/ Matches b i j
  | Star a => star_of (Matches a) i j
  | Plus a => exists k, Matches a i k /\ star_of (Matches a) k j
  | Opt a => Matches a i j \/ j = i
  | Group _ a => Matches a i j
  end.

End Semantics.

(** The pattern matches somewhere in the text. *)
Definition matches_somewhere (p : Pattern) (txt : str) : Prop :=
  exists i j, i <= List.length txt /\ Matches (pat_flags p) txt (pat_re p) i j.

(** [w] is the part of [s] from position [i] to position [j]. *)
Definition segment (s : str) (i j : nat) (w : str) : Prop :=
  exists pre post, s = pre ++ w ++ post /\ i = List.length pre /\ j = List.length pre + List.length w.

(** The expression that matches the characters of [w] one after the other. *)
Fixpoint lits (w : str) : re :=
  match w with
  | [] => Empty
  | [c] => Lit c
  | c :: rest => Seq (Lit c) (lits rest)
  end.

(** ** The shapes of headings *)

Definition keywords : list str := [ u "статья"; u "стаття"; u "article" ].

(** One of the keywords, in any letter case. *)
Definition is_keyword_ci (w : str) : Prop := In (str_lower w) keywords.

Definition numero : N := 0x2116.

Definition spaces (w : str) : Prop := forallb is_space w = true.
Definition digits (w : str) : Prop := forallb is_digit w = true.


(** What follows a keyword in a numbered heading: white space, at least
    one character of it, then an optional "№", optional white space and a
    decimal number. *)
Definition number_after (ws1 no ws2 ds : str) : Prop :=
  ws1 <> [] /\ spaces ws1 /\ (no = [] \/ no = [numero]) /\ spaces ws2 /\
  ds <> [] /\ digits ds.


(** The text holds a numbered heading after [pre], with the number [ds]. *)
Definition numbered_heading_at (txt pre ds post : str) : Prop :=
  exists kw ws1 no ws2,
    txt = pre ++ kw ++ ws1 ++ no ++ ws2 ++ ds ++ post /\
    is_keyword_ci kw /\ number_after ws1 no ws2 ds.


(** *** The shapes as the specification words them *)





(** The characters the case mapping moves, and their images. *)
Definition cased (x : N) : Prop :=
  (0x41 <= x <= 0x7A \/ 0xC0 <= x <= 0xFE \/ 0x400 <= x <= 0x45F)%N.

(** The expression [r] matches exactly the parts of the subject that have
    the property [L]. *)
Definition denotes (fl : flags) (s : str) (r : re) (L : str -> Prop) : Prop :=
  forall i j,
    (i <= List.length s /\ Matches fl s r i j) <-> (exists w, segment s i j w /\ L w).

(** The pieces of the three expressions of the script. *)
Definition WS : re := Class false [CCat CatSpace true].
Definition DIGIT : re := Class false [CCat CatDigit true].

Definition keyword_re (k1 k2 k3 : str) : re := Alt (lits k1) (Alt (lits k2) (lits k3)).

(** [\s+№?\s*] followed by [d] *)
Definition number_tail (d : re) : re :=
  Seq (Plus WS) (Seq (Opt (Lit numero)) (Seq (Star WS) d)).


(** An article under the header of the specification's example. *)
Definition fifth_article : Article :=
  {| a_header := u "Статья № 5."; a_text := u "Статья № 5."; a_extra := [] |}.

(** ** Notions for further properties of the script *)

(** The text has a character that is no white space. *)
Definition nonblank (s : str) : Prop := strip s <> [].

(** The keys of the [meta] dictionary of a record. *)
Definition meta_keys (a : Article) : list str := map fst (meta_of a).

(** What precedes the first line boundary of a text. *)
Fixpoint upto_linebreak (s : str) : str :=
  match s with
  | [] => []
  | c :: s' => if is_linebreak c then [] else c :: upto_linebreak s'
  end.

(** A paragraph with one plain and one bold run. *)
Definition mixed_runs : DocxParagraph :=
  {| dp_text := u " Статья 1 ";
     dp_style_name := None;
     dp_runs := [ {| run_text := u " "; run_bold := Some true |};
                  {| run_text := u "Статья"; run_bold := None |};
                  {| run_text := u " 1"; run_bold := Some true |} ] |}.

(** The value of the key [id] of a record. *)
Definition record_id (base source_path : str) (i : nat) (a : Article) : str :=
  match record_of base source_path i a with
  | JObj ((_, JStr id) :: _) => id
  | _ => []
  end.

(** What the driver prints for a file after its name: the count of saved
    records, which is at least one, or an error other than [IndexError]. *)
Definition file_outcome (p : str) (o : Output) : Prop :=
  (exists n out_file, o = PrintSaved n out_file /\ 1 <= n)
  \/ (exists e, o = PrintError (path_name p) e /\ e <> IndexError).

(** Two articles under the same numbered header. *)
Definition repeated_header : list Article :=
  [ {| a_header := u "Статья 7. Права"; a_text := u "Статья 7. Права"; a_extra := [] |};
    {| a_header := u "Статья 7. Права"; a_text := u "Статья 7. Права
(новая редакция)"; a_extra := [] |} ].

(** The characters the first default pattern accepts after the number. *)
Definition is_terminator (c : N) : bool :=
  is_space c || (c =? ch ".")%N || (c =? ch "-")%N || (c =? 0x2013)%N || (c =? 0x2014)%N
  || (c =? ch ":")%N.

Definition TERMINATOR : re :=
  Class false [CCat CatSpace true; CChar (ch "."); CChar (ch "-"); CChar 0x2013;
               CChar 0x2014; CChar (ch ":")].

(** The expression does not look at line starts or line ends. *)
Fixpoint unanchored (r : re) : bool :=
  match r with
  | Bol | Eol => false
  | Seq a b | Alt a b => unanchored a && unanchored b
  | Star a | Plus a | Opt a | Group _ a => unanchored a
  | Empty | Lit _ | AnyChar | Class _ _ | WordB _ => true
  end.

(** A paragraph that is neither bold nor styled as a heading. *)
Definition plain_heading : Paragraph :=
  {| p_text := u "СТАТЬЯ № 12: Права"; p_style := Some (u "Normal"); p_is_bold := false |}.

(** * Properties *)

Example u_article : u "Article №" = [65; 114; 116; 105; 99; 108; 101; 32; 0x2116]%N.
Proof. reflexivity. Qed.
Example u_cyr : u "Ст" = [0x421; 0x442]%N.
Proof. reflexivity. Qed.
Example str_of_Z_12 : str_of_Z 12 = u "12".
Proof. reflexivity. Qed.
Example splitlines_ex : splitlines (u "ab
c") = [u "ab"; u "c"].
Proof. reflexivity. Qed.

(** ** The shape of the results of the two detection tiers *)

Lemma paragraph_articles_length paras bs arts :
  paragraph_articles paras bs = Ok arts -> List.length arts = List.length bs.
Proof.
  revert arts. induction bs as [| b rest IH]; intros arts H; simpl in H.
  - now inversion H.
  - destruct (nth_error paras b); [| discriminate].
    destruct (paragraph_articles paras rest) as [l |]; simpl in H; [| discriminate].
    inversion H; subst. simpl. now rewrite (IH l).
Qed.

Lemma text_articles_length full_text starts :
  List.length (text_articles full_text starts) = List.length starts.
Proof. induction starts as [| a rest IH]; simpl; congruence. Qed.

(** A tier answers [None] or a list that is not empty. *)
Lemma split_by_paragraph_markers_shape paras patterns t :
  split_by_paragraph_markers paras patterns = Ok t ->
  t = None \/ exists a l, t = Some (a :: l).
Proof.
  unfold split_by_paragraph_markers, compile_or_raise.
  destruct (re_compile _ _) as [pat |]; simpl; [| discriminate].
  destruct (boundaries_from pat 0 paras) as [| b bs] eqn:Hb.
  - intros H; inversion H; now left.
  - destruct (paragraph_articles paras (b :: bs)) as [arts |] eqn:Ha; simpl; [| discriminate].
    intros H; inversion H; subst. right.
    apply paragraph_articles_length in Ha.
    destruct arts as [| a l]; [discriminate | eauto].
Qed.

Lemma split_by_text_regex_shape full_text patterns t :
  split_by_text_regex full_text patterns = Ok t ->
  t = None \/ exists a l, t = Some (a :: l).
Proof.
  unfold split_by_text_regex, compile_or_raise.
  destruct (re_compile _ _) as [pat |]; simpl; [| discriminate].
  destruct (re_finditer pat full_text) as [| m ms].
  - intros H; inversion H; now left.
  - intros H; inversion H; subst. right. simpl. eauto.
Qed.

Lemma meta_of_fallback full_text :
  meta_of (fallback_article full_text) = [(u "fallback", JBool true)].
Proof. reflexivity. Qed.

Section FallbackChain.
Variables (w : World) (path : str) (patterns : list str) (doc : Doc).
Hypothesis loaded : w_docs w !! path = Some doc.

Lemma extract_unfold :
  extract_articles_from_docx w path patterns =
  ebind (split_by_paragraph_markers (paragraphs_to_text doc) patterns)
    (fun articles =>
       if truthy articles then Ok (default [] articles)
       else ebind (split_by_text_regex (full_text_of doc) patterns)
              (fun articles =>
                 if truthy articles then Ok (default [] articles)
                 else Ok [fallback_article (full_text_of doc)])).
Proof. unfold extract_articles_from_docx, Document. now rewrite loaded. Qed.

Lemma extract_tier1 a l :
  split_by_paragraph_markers (paragraphs_to_text doc) patterns = Ok (Some (a :: l)) ->
  extract_articles_from_docx w path patterns = Ok (a :: l).
Proof. intros H. rewrite extract_unfold, H. reflexivity. Qed.

Lemma extract_tier2 a l :
  split_by_paragraph_markers (paragraphs_to_text doc) patterns = Ok None ->
  split_by_text_regex (full_text_of doc) patterns = Ok (Some (a :: l)) ->
  extract_articles_from_docx w path patterns = Ok (a :: l).
Proof. intros H1 H2. rewrite extract_unfold, H1. simpl. rewrite H2. reflexivity. Qed.

Lemma extract_fallback :
  split_by_paragraph_markers (paragraphs_to_text doc) patterns = Ok None ->
  split_by_text_regex (full_text_of doc) patterns = Ok None ->
  extract_articles_from_docx w path patterns = Ok [fallback_article (full_text_of doc)].
Proof. intros H1 H2. rewrite extract_unfold, H1. simpl. rewrite H2. reflexivity. Qed.

Lemma extract_raises_tier1 e :
  split_by_paragraph_markers (paragraphs_to_text doc) patterns = Raise e ->
  extract_articles_from_docx w path patterns = Raise e.
Proof. intros H. rewrite extract_unfold, H. reflexivity. Qed.

End FallbackChain.

(** C1.  Detection is a chain in which the first tier that finds spans
    wins.  Whenever the paragraph tier answers, its answer is nothing or a
    list that is not empty; in the latter case that list is the result,
    whatever the text tier would do.  Only when the paragraph tier found
    nothing does the answer of the text tier count: its spans, if any, are
    the result, and when it found nothing either the result is exactly one
    record, with header "(full document)", the whole text, and a meta that
    consists of the fallback marker. *)
Theorem C1_first_success_wins (w : World) (path : str) (patterns : list str) (doc : Doc)
    (t1 : option (list Article)) :
  w_docs w !! path = Some doc ->
  split_by_paragraph_markers (paragraphs_to_text doc) patterns = Ok t1 ->
  (t1 = None \/ exists a l, t1 = Some (a :: l)) /\
  (forall spans, t1 = Some spans ->
     extract_articles_from_docx w path patterns = Ok spans) /\
  (t1 = None ->
     forall t2, split_by_text_regex (full_text_of doc) patterns = Ok t2 ->
       (t2 = None \/ exists a l, t2 = Some (a :: l)) /\
       (forall spans, t2 = Some spans ->
          extract_articles_from_docx w path patterns = Ok spans) /\
       (t2 = None ->
          exists r, extract_articles_from_docx w path patterns = Ok [r] /\
                    a_header r = u "(full document)" /\
                    a_text r = full_text_of doc /\
                    meta_of r = [(u "fallback", JBool true)])).
Proof.
  intros Hdoc H1.
  pose proof (split_by_paragraph_markers_shape _ _ _ H1) as S1.
  split; [exact S1 |]. split.
  - intros spans ->. destruct S1 as [S1 | (a & l & S1)]; [discriminate |].
    inversion S1; subst. now apply extract_tier1 with (doc := doc).
  - intros -> t2 H2.
    pose proof (split_by_text_regex_shape _ _ _ H2) as S2.
    split; [exact S2 |]. split.
    + intros spans ->. destruct S2 as [S2 | (a & l & S2)]; [discriminate |].
      inversion S2; subst. now apply extract_tier2 with (doc := doc).
    + intros ->. exists (fallback_article (full_text_of doc)).
      split; [now apply extract_fallback |]. repeat split.
Qed.

(** ** Positions reached by the matcher *)

Section MatcherRange.
Variables (fl : flags) (s : str).

Lemma in_reach_refl i : in_reach s i i.
Proof. unfold in_reach. lia. Qed.

Lemma in_reach_trans i j k : in_reach s i j -> in_reach s j k -> in_reach s i k.
Proof. unfold in_reach. lia. Qed.

Lemma on_char_reach i caps ok j c :
  In (j, c) (on_char s i caps ok) -> in_reach s i j.
Proof.
  unfold on_char, char_at. destruct (nth_error s i) as [d |] eqn:E; [| intros []].
  assert (i < List.length s) by (apply nth_error_Some; congruence).
  destruct (ok d); [| intros []]. intros [H0 | []]. inversion H0; subst.
  unfold in_reach. lia.
Qed.

Lemma guard_reach b i caps j c : In (j, c) (guard b i caps) -> in_reach s i j.
Proof.
  unfold guard. destruct b; [| intros []]. intros [H0 | []]. inversion H0; subst.
  apply in_reach_refl.
Qed.

Lemma star_loop_reach step :
  (forall i caps j c, In (j, c) (step i caps) -> in_reach s i j) ->
  forall n i caps j c, In (j, c) (star_loop step n i caps) -> in_reach s i j.
Proof.
  intros Hstep. induction n as [| n IH]; intros i caps j c H; simpl in H.
  - destruct H as [H | []]. inversion H; subst. apply in_reach_refl.
  - apply in_app_or in H. destruct H as [H | [H | []]].
    + apply in_flat_map in H. destruct H as ([k ck] & Hk & Hj). simpl in Hj.
      destruct (i <? k); [| destruct Hj].
      eapply in_reach_trans; [eapply Hstep; exact Hk | eapply IH; exact Hj].
    + inversion H; subst. apply in_reach_refl.
Qed.

Lemma ends_reach r : forall i caps j c, In (j, c) (ends fl s r i caps) -> in_reach s i j.
Proof.
  induction r as [| p | | neg items | | | pos | a IHa b IHb | a IHa b IHb | a IHa | a IHa
                 | a IHa | g a IHa]; intros i caps j c H; cbn [ends] in H.
  - destruct H as [H | []]. inversion H; subst. apply in_reach_refl.
  - eapply on_char_reach; eauto.
  - eapply on_char_reach; eauto.
  - eapply on_char_reach; eauto.
  - eapply guard_reach; eauto.
  - eapply guard_reach; eauto.
  - eapply guard_reach; eauto.
  - apply in_flat_map in H. destruct H as ([k ck] & Hk & Hj). cbn [fst snd] in Hj.
    eapply in_reach_trans; [eapply IHa; exact Hk | eapply IHb; exact Hj].
  - apply in_app_or in H. destruct H as [H | H]; [eapply IHa | eapply IHb]; exact H.
  - eapply star_loop_reach; [exact IHa | exact H].
  - apply in_flat_map in H. destruct H as ([k ck] & Hk & Hj). cbn [fst snd] in Hj.
    eapply in_reach_trans; [eapply IHa; exact Hk |].
    eapply star_loop_reach; [exact IHa | exact Hj].
  - apply in_app_or in H. destruct H as [H | [H | []]]; [eapply IHa; exact H |].
    inversion H; subst. apply in_reach_refl.
  - apply in_map_iff in H. destruct H as ([k ck] & Hk & Hj). inversion Hk; subst.
    simpl. eapply IHa; exact Hj.
Qed.

End MatcherRange.

Lemma match_at_spec p s adv i m :
  match_at p s adv i = Some m ->
  m_start m = i /\ in_reach s i (m_end m) /\ (adv = true -> i < m_end m) /\
  In (m_end m, m_caps m) (ends (pat_flags p) s (pat_re p) i []).
Proof.
  unfold match_at.
  destruct (List.filter _ _) as [| [j c] l] eqn:E; [discriminate |].
  intros H; inversion H; subst; simpl.
  assert (Hin : In (j, c) (List.filter (fun jc => negb adv || (i <? fst jc))
                            (ends (pat_flags p) s (pat_re p) i [])))
    by (rewrite E; now left).
  apply filter_In in Hin. destruct Hin as [Hin Hok]. simpl in Hok.
  repeat split.
  - eapply ends_reach; eauto.
  - eapply ends_reach; eauto.
  - intros ->. simpl in Hok. now apply Nat.ltb_lt in Hok.
  - exact Hin.
Qed.

(** ** The scan of [finditer] *)

Lemma scan_starts p s : forall n i lo,
  Forall (fun m => i <= m_start m < i + n /\ in_reach s (m_start m) (m_end m))
         (scan p s n i lo).
Proof.
  induction n as [| n IH]; intros i lo; simpl; [constructor |].
  assert (Hrest : forall lo', Forall (fun m => i <= m_start m < i + S n /\
                                       in_reach s (m_start m) (m_end m))
                                (scan p s n (S i) lo')).
  { intros lo'. eapply List.Forall_impl; [| apply (IH (S i) lo')]. simpl.
    intros m [H1 H2]. split; [lia | exact H2]. }
  destruct (i <? lo); [apply Hrest |].
  destruct (match_at p s false i) as [m |] eqn:E1; [| apply Hrest].
  apply match_at_spec in E1. destruct E1 as (S1 & R1 & _ & _).
  assert (Hm : i <= m_start m < i + S n /\ in_reach s (m_start m) (m_end m))
    by (rewrite S1; split; [lia | exact R1]).
  destruct (m_end m =? i).
  - destruct (match_at p s true i) as [m' |] eqn:E2.
    + apply match_at_spec in E2. destruct E2 as (S2 & R2 & _ & _).
      constructor; [exact Hm |]. constructor; [| apply Hrest].
      rewrite S2; split; [lia | exact R2].
    + constructor; [exact Hm | apply Hrest].
  - constructor; [exact Hm | apply Hrest].
Qed.

Lemma scan_sorted p s : forall n i lo, Sorted le (map m_start (scan p s n i lo)).
Proof.
  induction n as [| n IH]; intros i lo; simpl; [constructor |].
  assert (Hhd : forall lo', HdRel le i (map m_start (scan p s n (S i) lo'))).
  { intros lo'. pose proof (scan_starts p s n (S i) lo') as F.
    destruct (scan p s n (S i) lo') as [| m l]; simpl; constructor.
    inversion F; subst. lia. }
  destruct (i <? lo); [apply IH |].
  destruct (match_at p s false i) as [m |] eqn:E1; [| apply IH].
  apply match_at_spec in E1. destruct E1 as (S1 & _).
  destruct (m_end m =? i).
  - destruct (match_at p s true i) as [m' |] eqn:E2.
    + apply match_at_spec in E2. destruct E2 as (S2 & _). simpl. rewrite S1, S2.
      constructor; [constructor; [apply IH | apply Hhd] |]. constructor. lia.
    + simpl. rewrite S1. constructor; [apply IH | apply Hhd].
  - simpl. rewrite S1. constructor; [apply IH | apply Hhd].
Qed.

(** The matches of [finditer] start inside the subject, in order. *)
Lemma re_finditer_starts p s :
  Forall (fun m => m_start m <= List.length s /\ m_start m <= m_end m <= List.length s)
         (re_finditer p s) /\
  Sorted le (map m_start (re_finditer p s)).
Proof.
  split; [| apply scan_sorted].
  eapply List.Forall_impl; [| apply scan_starts]. simpl. unfold in_reach. intros m. lia.
Qed.


(** ** Boundaries and spans *)

Lemma intervals_length starts stop : List.length (intervals starts stop) = List.length starts.
Proof. induction starts; simpl; congruence. Qed.

Lemma intervals_nth starts stop : forall i b,
  nth_error starts i = Some b ->
  nth_error (intervals starts stop) i = Some (b, nth (S i) starts stop).
Proof.
  induction starts as [| a rest IH]; intros [| i] b H; simpl in *; try discriminate.
  - inversion H; subst. now destruct rest.
  - now apply IH.
Qed.

Lemma boundaries_from_bounds pat : forall paras idx,
  Forall (fun b => idx <= b < idx + List.length paras) (boundaries_from pat idx paras).
Proof.
  induction paras as [| p rest IH]; intros idx; simpl; [constructor |].
  assert (H : Forall (fun b => idx <= b < idx + S (List.length rest))
                     (boundaries_from pat (S idx) rest)).
  { eapply List.Forall_impl; [| apply (IH (S idx))]. simpl. intros b. lia. }
  destruct (is_boundary pat p); [constructor; [lia | exact H] | exact H].
Qed.

Lemma boundaries_from_sorted pat : forall paras idx,
  Sorted lt (boundaries_from pat idx paras).
Proof.
  induction paras as [| p rest IH]; intros idx; simpl; [constructor |].
  destruct (is_boundary pat p); [| apply IH].
  constructor; [apply IH |].
  pose proof (boundaries_from_bounds pat rest (S idx)) as F.
  destruct (boundaries_from pat (S idx) rest); constructor.
  inversion F; subst. lia.
Qed.

(** The paragraphs the tier marks are exactly those that pass the test. *)
Lemma boundaries_from_iff pat : forall paras idx b,
  In b (boundaries_from pat idx paras) <->
  exists p, idx <= b /\ nth_error paras (b - idx) = Some p /\ is_boundary pat p = true.
Proof.
  induction paras as [| p rest IH]; intros idx b; simpl.
  - split; [intros [] |]. intros (q & _ & H & _). now destruct (b - idx).
  - assert (Hrest : In b (boundaries_from pat (S idx) rest) <->
                    exists q, S idx <= b /\ nth_error rest (b - S idx) = Some q /\
                              is_boundary pat q = true) by apply IH.
    destruct (is_boundary pat p) eqn:E.
    + split.
      * intros [<- | H].
        -- exists p. rewrite Nat.sub_diag. simpl. auto.
        -- apply Hrest in H. destruct H as (q & Hle & Hn & Hq). exists q.
           replace (b - idx) with (S (b - S idx)) by lia. simpl. split; [lia | auto].
      * intros (q & Hle & Hn & Hq).
        destruct (Nat.eq_dec b idx) as [-> | Hne]; [now left |]. right.
        apply Hrest. exists q. replace (b - idx) with (S (b - S idx)) in Hn by lia.
        simpl in Hn. split; [lia | auto].
    + split.
      * intros H. apply Hrest in H. destruct H as (q & Hle & Hn & Hq). exists q.
        replace (b - idx) with (S (b - S idx)) by lia. simpl. split; [lia | auto].
      * intros (q & Hle & Hn & Hq).
        destruct (Nat.eq_dec b idx) as [-> | Hne].
        -- rewrite Nat.sub_diag in Hn. simpl in Hn. congruence.
        -- apply Hrest. exists q. replace (b - idx) with (S (b - S idx)) in Hn by lia.
           simpl in Hn. split; [lia | auto].
Qed.

(** The article the paragraph tier builds for the span from [b] to [e]. *)
Lemma paragraph_articles_spec paras : forall bs,
  Forall (fun b => b < List.length paras) bs ->
  exists arts,
    paragraph_articles paras bs = Ok arts /\
    List.length arts = List.length bs /\
    forall i b, nth_error bs i = Some b ->
      exists p, nth_error paras b = Some p /\
        nth_error arts i =
        Some {| a_header := first_split_nl (p_text p);
                a_text := strip (joined_paragraphs paras b (nth (S i) bs (List.length paras)));
                a_extra := [ (u "start_para", JInt (Z.of_nat b));
                             (u "end_para",
                              JInt (Z.of_nat (nth (S i) bs (List.length paras)) - 1)) ] |}.
Proof.
  induction bs as [| b rest IH]; intros F.
  - exists []. repeat split. intros [| i] b H; discriminate.
  - inversion F as [| ? ? Hb Frest]; subst.
    destruct (IH Frest) as (arts & Ha & Hl & Hn).
    destruct (nth_error paras b) as [p |] eqn:Ep;
      [| apply nth_error_None in Ep; lia].
    eexists. cbn [paragraph_articles]. rewrite Ep, Ha. cbn [ebind].
    split; [reflexivity |]. split; [simpl; congruence |].
    intros [| i] b' H; simpl in H.
    + inversion H; subst. exists p. split; [exact Ep |]. simpl.
      destruct rest; reflexivity.
    + destruct (Hn i b' H) as (q & Hq & Hi). exists q. split; [exact Hq |]. exact Hi.
Qed.

(** ** Trimmed texts *)

Lemma lstrip_suffix s : exists pre, s = pre ++ lstrip s.
Proof.
  induction s as [| c s IH]; simpl; [now exists [] |].
  destruct (is_space c); [| now exists []].
  destruct IH as (pre & IH). exists (c :: pre). simpl. now f_equal.
Qed.

Lemma lstrip_head s c t : lstrip s = c :: t -> is_space c = false.
Proof.
  induction s as [| d s IH]; simpl; [discriminate |].
  destruct (is_space d) eqn:E; [exact IH |]. intros H; inversion H; subst. exact E.
Qed.

Lemma lstrip_id c t : is_space c = false -> lstrip (c :: t) = c :: t.
Proof. intros H. simpl. now rewrite H. Qed.

Lemma rstrip_prefix s : exists post, s = rstrip s ++ post.
Proof.
  unfold rstrip. destruct (lstrip_suffix (rev s)) as (pre & H).
  exists (rev pre). rewrite <- rev_app_distr, <- H. now rewrite rev_involutive.
Qed.

Lemma rstrip_id s c : s <> [] -> is_space (List.last s c) = false -> rstrip s = s.
Proof.
  intros Hne Hl. unfold rstrip.
  destruct (rev s) as [| d r] eqn:E.
  - apply (f_equal (@rev N)) in E. rewrite rev_involutive in E. simpl in E. congruence.
  - assert (Hs : s = rev r ++ [d]).
    { apply (f_equal (@rev N)) in E. rewrite rev_involutive in E. exact E. }
    rewrite Hs in Hl. rewrite List.last_last in Hl.
    rewrite lstrip_id by exact Hl. now rewrite Hs.
Qed.

Lemma rstrip_last s c d : rstrip s = c :: d -> is_space (List.last (rstrip s) c) = false.
Proof.
  unfold rstrip. intros H.
  destruct (lstrip (rev s)) as [| x r] eqn:E; [discriminate |].
  simpl. rewrite List.last_last. eapply lstrip_head; exact E.
Qed.

Lemma strip_trimmed s : strip s <> [] -> trimmed (strip s).
Proof.
  unfold strip. intros Hne.
  destruct (rstrip (lstrip s)) as [| c t] eqn:E; [congruence |].
  exists c, t. split; [reflexivity |]. split.
  - destruct (rstrip_prefix (lstrip s)) as (post & Hp). rewrite E in Hp.
    simpl in Hp. eapply lstrip_head. exact Hp.
  - rewrite <- E. eapply rstrip_last. exact E.
Qed.

Lemma trimmed_strip s : trimmed s -> strip s = s.
Proof.
  intros (c & t & -> & Hc & Hl). unfold strip. rewrite lstrip_id by exact Hc.
  apply rstrip_id with (c := c); [discriminate | exact Hl].
Qed.

Lemma last_app_ne (a b : str) d : b <> [] -> List.last (a ++ b) d = List.last b d.
Proof.
  intros Hb. induction a as [| x a IH]; [reflexivity |].
  simpl. destruct (a ++ b) eqn:E; [| exact IH].
  apply app_eq_nil in E. destruct E. congruence.
Qed.

Lemma last_indep (s : str) d d' : s <> [] -> List.last s d = List.last s d'.
Proof.
  induction s as [| x s IH]; [congruence |]. intros _.
  destruct s; [reflexivity |]. simpl in *. apply IH. discriminate.
Qed.

(** Trimmed texts joined with newlines give a trimmed text. *)
Lemma join_trimmed t ts : Forall trimmed (t :: ts) -> trimmed (join [NL] (t :: ts)).
Proof.
  revert t. induction ts as [| t' ts IH]; intros t F.
  - inversion F; subst. assumption.
  - inversion F as [| ? ? Ht F']; subst. specialize (IH t' F').
    destruct Ht as (c & r & -> & Hc & _).
    destruct IH as (c' & r' & E' & _ & Hl').
    change (join [NL] ((c :: r) :: t' :: ts))
      with ((c :: r) ++ [NL] ++ join [NL] (t' :: ts)).
    exists c, (r ++ [NL] ++ join [NL] (t' :: ts)). split; [reflexivity |].
    split; [exact Hc |].
    rewrite app_assoc, last_app_ne by (rewrite E'; discriminate).
    rewrite (last_indep _ c c') by (rewrite E'; discriminate). exact Hl'.
Qed.

Lemma first_split_nl_app t rest : first_split_nl (t ++ NL :: rest) = first_split_nl t.
Proof.
  induction t as [| c t IH]; simpl; [reflexivity |].
  destruct (c =? NL)%N; [reflexivity | now rewrite IH].
Qed.

Lemma first_split_nl_join t ts : first_split_nl (join [NL] (t :: ts)) = first_split_nl t.
Proof.
  destruct ts as [| t' ts]; [reflexivity |].
  change (join [NL] (t :: t' :: ts)) with (t ++ NL :: join [NL] (t' :: ts)).
  apply first_split_nl_app.
Qed.

(** The loader keeps trimmed texts only. *)
Lemma paragraphs_to_text_trimmed doc :
  Forall trimmed (map p_text (paragraphs_to_text doc)).
Proof.
  induction doc as [| p rest IH]; simpl; [constructor |].
  destruct (strip (dp_text p)) as [| c t] eqn:E; simpl; [exact IH |].
  constructor; [| exact IH]. rewrite <- E. apply strip_trimmed. rewrite E. discriminate.
Qed.

Lemma slice_cons {A : Type} (l : list A) b e x :
  nth_error l b = Some x -> b < e ->
  exists rest, slice l b e = x :: rest.
Proof.
  intros Hn Hlt. unfold slice.
  destruct (nth_error_split l b Hn) as (l1 & l2 & -> & <-).
  rewrite skipn_app, Nat.sub_diag, skipn_all. simpl.
  destruct (e - List.length l1) as [| k] eqn:E; [lia |]. simpl. eauto.
Qed.

Lemma Forall_slice {A : Type} (P : A -> Prop) (l : list A) b e :
  Forall P l -> Forall P (slice l b e).
Proof.
  intros F. unfold slice. apply Forall_take, Forall_drop, F.
Qed.

Lemma sorted_next bs stop : Sorted lt bs -> Forall (fun b => b < stop) bs ->
  forall i b, nth_error bs i = Some b -> b < nth (S i) bs stop <= stop.
Proof.
  induction bs as [| a rest IH]; intros Hs Hf [| i] b H; simpl in H; try discriminate.
  - inversion H; subst. inversion Hf; subst. inversion Hs as [| ? ? _ Hhd]; subst.
    destruct rest as [| a' rest']; simpl; [lia |].
    inversion Hhd; subst. inversion H3; subst. lia.
  - inversion Hf; subst. inversion Hs; subst.
    change (nth (S (S i)) (a :: rest) stop) with (nth (S i) rest stop). now apply IH.
Qed.

Lemma boundaries_in_range pat paras :
  Forall (fun b => b < List.length paras) (boundaries_from pat 0 paras).
Proof.
  eapply List.Forall_impl; [| apply boundaries_from_bounds]. simpl. intros b. lia.
Qed.

(** C3.  When the paragraph tier finds a boundary in the paragraphs of a
    document, it returns one span per boundary.  The span of the boundary
    [b] covers the paragraphs from [b] up to, and without, the next
    boundary [e], the last span running to the end of the paragraph list;
    its text is the texts of these paragraphs joined with newlines and
    trimmed, and its header is the first line of that text. *)
Theorem C3_paragraph_spans (doc : Doc) (patterns : list str) (pat : Pattern) :
  re_compile (paragraph_pattern_source patterns) re_IM = Some pat ->
  boundaries_from pat 0 (paragraphs_to_text doc) <> [] ->
  let paras := paragraphs_to_text doc in
  let bs := boundaries_from pat 0 paras in
  exists arts,
    split_by_paragraph_markers paras patterns = Ok (Some arts) /\
    List.length arts = List.length bs /\
    forall i b, nth_error bs i = Some b ->
      let e := nth (S i) bs (List.length paras) in
      b < e <= List.length paras /\
      exists a, nth_error arts i = Some a /\
        a_text a = strip (joined_paragraphs paras b e) /\
        a_header a = first_line (strip (joined_paragraphs paras b e)) /\
        a_header a = first_line (joined_paragraphs paras b e) /\
        recorded "start_para" a = Some (Z.of_nat b) /\
        recorded "end_para" a = Some (Z.of_nat e - 1)%Z.
Proof.
  intros Hc Hne paras bs.
  destruct (paragraph_articles_spec paras bs (boundaries_in_range pat paras))
    as (arts & Ha & Hl & Hn).
  exists arts. split.
  - unfold split_by_paragraph_markers, compile_or_raise. rewrite Hc. cbn [ebind].
    subst bs paras. revert Ha Hne.
    destruct (boundaries_from pat 0 (paragraphs_to_text doc)) as [| b0 rest];
      [congruence |].
    intros Ha _. now rewrite Ha.
  - split; [exact Hl |]. intros i b Hb e.
    pose proof (sorted_next bs (List.length paras) (boundaries_from_sorted pat paras 0)
                  (boundaries_in_range pat paras) i b Hb) as Hlt.
    split; [exact Hlt |].
    destruct (Hn i b Hb) as (p & Hp & Hi). eexists. split; [exact Hi |]. cbn.
    fold e.
    destruct (slice_cons paras b e p Hp (proj1 Hlt)) as (rest & Hs).
    assert (Ht : trimmed (joined_paragraphs paras b e)).
    { unfold joined_paragraphs. rewrite Hs. cbn [map]. apply join_trimmed.
      change (p_text p :: map p_text rest) with (map p_text (p :: rest)). rewrite <- Hs.
      unfold slice. rewrite <- firstn_map, <- skipn_map.
      apply Forall_take, Forall_drop, paragraphs_to_text_trimmed. }
    assert (Hf : first_split_nl (p_text p) = first_line (joined_paragraphs paras b e)).
    { unfold first_line, joined_paragraphs. rewrite Hs. cbn [map].
      now rewrite first_split_nl_join. }
    rewrite (trimmed_strip _ Ht). repeat split; exact Hf.
Qed.

Lemma text_articles_spec full_text : forall starts i st,
  nth_error starts i = Some st ->
  exists a, nth_error (text_articles full_text starts) i = Some a /\
    a_text a = strip (slice full_text st (nth (S i) starts (List.length full_text))) /\
    a_header a = hd [] (splitlines (a_text a)) /\
    recorded "start_char" a = Some (Z.of_nat st) /\
    recorded "end_char" a = Some (Z.of_nat (nth (S i) starts (List.length full_text))) /\
    span_start a = Some (Z.of_nat st) /\
    span_end a = Some (Z.of_nat (nth (S i) starts (List.length full_text))).
Proof.
  induction starts as [| s0 rest IH]; intros [| i] st H; simpl in H; try discriminate.
  - inversion H; subst. eexists. split; [reflexivity |]. cbn [a_text a_header].
    replace (nth 1 (st :: rest) (List.length full_text))
      with (hd (List.length full_text) rest) by (destruct rest; reflexivity).
    repeat split.
  - destruct (IH i st H) as (a & Ha & Hrest). exists a. split; [exact Ha |]. exact Hrest.
Qed.

Lemma sorted_le_next (l : list nat) : Sorted le l ->
  forall i a b, nth_error l i = Some a -> nth_error l (S i) = Some b -> a <= b.
Proof.
  induction l as [| x rest IH]; intros Hs [| i] a b Ha Hb; simpl in *; try discriminate.
  - inversion Ha; subst. inversion Hs as [| ? ? _ Hhd]; subst.
    destruct rest; [discriminate |]. simpl in Hb. inversion Hb; subst.
    now inversion Hhd.
  - inversion Hs; subst. eapply IH; eauto.
Qed.

Lemma nth_error_nth_default {A : Type} (l : list A) i x d :
  nth_error l i = Some x -> nth i l d = x.
Proof. revert i. induction l; intros [| i] H; simpl in *; try discriminate; [congruence | auto]. Qed.

Lemma nth_overflow_default {A : Type} (l : list A) i d :
  List.length l <= i -> nth i l d = d.
Proof. revert i. induction l; intros [| i] H; simpl in *; try reflexivity; [lia | apply IHl; lia]. Qed.

(** C5, as the script has it.  The spans of a tier are in the order of
    their starts and leave no gap.  In the paragraph tier the recorded end
    is the index of the last paragraph of the span: the end of a span is
    one less than the start of the next span, starts grow strictly, the
    first start is the first boundary, and the last end is the index of
    the last paragraph.  In the text tier the recorded end is exclusive:
    the end of a span is the start of the next span, starts never
    decrease, the first start is the start of the first match, and the
    last end is the length of the text. *)
Theorem C5_spans_contiguous :
  (forall paras patterns arts,
     split_by_paragraph_markers paras patterns = Ok (Some arts) ->
     exists pat, re_compile (paragraph_pattern_source patterns) re_IM = Some pat /\
       let bs := boundaries_from pat 0 paras in
       List.length arts = List.length bs /\
       map span_start arts = map (fun b => Some (Z.of_nat b)) bs /\
       (forall i a b, nth_error arts i = Some a -> nth_error arts (S i) = Some b ->
          exists e s1 s2, span_end a = Some e /\ span_start a = Some s1 /\
                          span_start b = Some s2 /\ (e + 1 = s2)%Z /\ (s1 < s2)%Z) /\
       (forall a, nth_error arts (List.length arts - 1) = Some a ->
          span_end a = Some (Z.of_nat (List.length paras) - 1)%Z)) /\
  (forall full_text patterns arts,
     split_by_text_regex full_text patterns = Ok (Some arts) ->
     exists pat, re_compile (text_pattern_source patterns) re_IM = Some pat /\
       let starts := map m_start (re_finditer pat full_text) in
       List.length arts = List.length starts /\
       map span_start arts = map (fun b => Some (Z.of_nat b)) starts /\
       (forall i a b, nth_error arts i = Some a -> nth_error arts (S i) = Some b ->
          exists e s1 s2, span_end a = Some e /\ span_start a = Some s1 /\
                          span_start b = Some s2 /\ e = s2 /\ (s1 <= s2)%Z) /\
       (forall a, nth_error arts (List.length arts - 1) = Some a ->
          span_end a = Some (Z.of_nat (List.length full_text)))).
Proof.
  split.
  - intros paras patterns arts H.
    unfold split_by_paragraph_markers, compile_or_raise in H.
    destruct (re_compile _ _) as [pat |]; [| discriminate]. cbn [ebind] in H.
    exists pat. split; [reflexivity |]. intros bs.
    destruct (paragraph_articles_spec paras bs (boundaries_in_range pat paras))
      as (arts' & Ha & Hl & Hn).
    assert (arts' = arts) as ->.
    { subst bs. revert H Ha. destruct (boundaries_from pat 0 paras); [discriminate |].
      intros H Ha. rewrite Ha in H. cbn in H. congruence. }
    clear H Ha.
    assert (Hget : forall i a, nth_error arts i = Some a ->
              exists b, nth_error bs i = Some b /\ span_start a = Some (Z.of_nat b) /\
                span_end a = Some (Z.of_nat (nth (S i) bs (List.length paras)) - 1)%Z).
    { intros i a Hi.
      assert (i < List.length bs) as Hlt
        by (rewrite <- Hl; apply nth_error_Some; congruence).
      destruct (nth_error bs i) as [b |] eqn:Eb; [| apply nth_error_None in Eb; lia].
      destruct (Hn i b Eb) as (p & _ & Hi'). rewrite Hi in Hi'. inversion Hi'; subst.
      exists b. repeat split. }
    split; [exact Hl |]. split; [| split].
    + apply nth_error_ext. intros i. rewrite !nth_error_map.
      destruct (nth_error arts i) as [a |] eqn:Ea.
      * destruct (Hget i a Ea) as (b & Hb & Hs & _). rewrite Hb. simpl. now f_equal.
      * apply nth_error_None in Ea. rewrite Hl in Ea. apply nth_error_None in Ea.
        now rewrite Ea.
    + intros i a b Ha Hb.
      destruct (Hget i a Ha) as (ba & Hba & Hsa & Hea).
      destruct (Hget (S i) b Hb) as (bb & Hbb & Hsb & _).
      pose proof (sorted_next bs (List.length paras) (boundaries_from_sorted pat paras 0)
                    (boundaries_in_range pat paras) i ba Hba) as Hlt.
      rewrite (nth_error_nth_default _ _ _ (List.length paras) Hbb) in Hea, Hlt.
      exists (Z.of_nat bb - 1)%Z, (Z.of_nat ba), (Z.of_nat bb).
      repeat split; [exact Hea | exact Hsa | exact Hsb | lia | lia].
    + intros a Ha. destruct (Hget _ a Ha) as (b & _ & _ & He). rewrite He.
      rewrite nth_overflow_default by lia. reflexivity.
  - intros full_text patterns arts H.
    unfold split_by_text_regex, compile_or_raise in H.
    destruct (re_compile _ _) as [pat |]; [| discriminate]. cbn [ebind] in H.
    exists pat. split; [reflexivity |]. intros starts.
    assert (arts = text_articles full_text starts) as ->.
    { subst starts. destruct (re_finditer pat full_text); [discriminate |]. congruence. }
    clear H. pose proof (text_articles_length full_text starts) as Hl.
    assert (Hget : forall i a, nth_error (text_articles full_text starts) i = Some a ->
              exists st, nth_error starts i = Some st /\ span_start a = Some (Z.of_nat st) /\
                span_end a = Some (Z.of_nat (nth (S i) starts (List.length full_text)))).
    { intros i a Hi.
      assert (i < List.length starts) as Hlt
        by (rewrite <- Hl; apply nth_error_Some; congruence).
      destruct (nth_error starts i) as [st |] eqn:Eb; [| apply nth_error_None in Eb; lia].
      destruct (text_articles_spec full_text starts i st Eb) as (a' & Ha' & R).
      rewrite Hi in Ha'. inversion Ha'; subst. exists st. tauto. }
    split; [exact Hl |]. split; [| split].
    + apply nth_error_ext. intros i. rewrite !nth_error_map.
      destruct (nth_error (text_articles full_text starts) i) as [a |] eqn:Ea.
      * destruct (Hget i a Ea) as (b & Hb & Hs & _). rewrite Hb. simpl. now f_equal.
      * apply nth_error_None in Ea. rewrite Hl in Ea. apply nth_error_None in Ea.
        now rewrite Ea.
    + intros i a b Ha Hb.
      destruct (Hget i a Ha) as (ba & Hba & Hsa & Hea).
      destruct (Hget (S i) b Hb) as (bb & Hbb & Hsb & _).
      pose proof (sorted_le_next starts (proj2 (re_finditer_starts pat full_text))
                    i ba bb Hba Hbb) as Hle.
      rewrite (nth_error_nth_default _ _ _ (List.length full_text) Hbb) in Hea.
      exists (Z.of_nat bb), (Z.of_nat ba), (Z.of_nat bb).
      repeat split; [exact Hea | exact Hsa | exact Hsb | lia].
    + intros a Ha. destruct (Hget _ a Ha) as (b & _ & _ & He). rewrite He.
      rewrite nth_overflow_default by lia. reflexivity.
Qed.

(** ** No document is left without a record *)

Lemma split_by_paragraph_markers_ok paras patterns pat :
  re_compile (paragraph_pattern_source patterns) re_IM = Some pat ->
  exists t, split_by_paragraph_markers paras patterns = Ok t /\
            (boundaries_from pat 0 paras = [] -> t = None).
Proof.
  intros Hc. unfold split_by_paragraph_markers, compile_or_raise. rewrite Hc. cbn [ebind].
  destruct (paragraph_articles_spec paras _ (boundaries_in_range pat paras))
    as (arts & Ha & _).
  revert Ha. destruct (boundaries_from pat 0 paras) as [| b bs].
  - intros _. exists None. split; reflexivity.
  - intros Ha. rewrite Ha. cbn. eexists. split; [reflexivity | discriminate].
Qed.

Lemma split_by_text_regex_ok full_text patterns pat :
  re_compile (text_pattern_source patterns) re_IM = Some pat ->
  split_by_text_regex full_text patterns =
  Ok (match re_finditer pat full_text with
      | [] => None
      | ms => Some (text_articles full_text (map m_start ms))
      end).
Proof.
  intros Hc. unfold split_by_text_regex, compile_or_raise. rewrite Hc. cbn [ebind].
  now destruct (re_finditer pat full_text).
Qed.


(** The default patterns find nothing in the empty text. *)
Lemma default_patterns_on_empty_text :
  exists p2, re_compile (text_pattern_source DEFAULT_PATTERNS) re_IM = Some p2 /\
             re_finditer p2 [] = [].
Proof. eexists. split; [vm_compute; reflexivity | vm_compute; reflexivity]. Qed.

(** ** The order of the configured patterns *)



(** ** A pattern that does not compile *)




(** ** The lines of the output file *)

Lemma one_line_app a b : one_line a -> one_line b -> one_line (a ++ b).
Proof. unfold one_line. intros. now apply Forall_app. Qed.

Lemma u_ascii_cons (a : ascii) (s : string) :
  (N_of_ascii a <? 0x80)%N = true -> u (String a s) = N_of_ascii a :: u s.
Proof. intros H. unfold u. cbn [list_ascii_of_string map utf8_decode]. now rewrite H. Qed.

Lemma string_of_uint_one_line d : one_line (u (NilEmpty.string_of_uint d)).
Proof.
  induction d; cbn [NilEmpty.string_of_uint];
    try (rewrite u_ascii_cons by reflexivity; constructor; [discriminate | assumption]).
  constructor.
Qed.

Lemma str_of_Z_one_line z : one_line (str_of_Z z).
Proof.
  unfold str_of_Z, NilZero.string_of_int.
  assert (H : forall d, one_line (u (NilZero.string_of_uint d))).
  { intros d. unfold NilZero.string_of_uint.
    destruct d; try apply string_of_uint_one_line.
    repeat constructor; discriminate. }
  destruct (Z.to_int z) as [d | d]; [apply H |].
  rewrite u_ascii_cons by reflexivity. constructor; [discriminate | apply H].
Qed.

Lemma hex_digit_ne_nl n : hex_digit n <> NL.
Proof.
  unfold hex_digit, NL. destruct (n <? 10)%N eqn:E; [| lia].
  apply N.ltb_lt in E. lia.
Qed.

Lemma json_escape_char_one_line c : one_line (json_escape_char c).
Proof.
  unfold json_escape_char.
  destruct (c =? 0x22)%N; [repeat constructor; discriminate |].
  destruct (c =? 0x5C)%N; [repeat constructor; discriminate |].
  destruct (c =? 0x0A)%N eqn:E; [repeat constructor; discriminate |].
  destruct (c =? 0x0D)%N; [repeat constructor; discriminate |].
  destruct (c =? 0x09)%N; [repeat constructor; discriminate |].
  destruct (c =? 0x08)%N; [repeat constructor; discriminate |].
  destruct (c =? 0x0C)%N; [repeat constructor; discriminate |].
  destruct (c <? 0x20)%N.
  - apply one_line_app; [repeat constructor; discriminate |].
    repeat constructor; apply hex_digit_ne_nl.
  - constructor; [| constructor]. apply N.eqb_neq in E. exact E.
Qed.

Lemma json_string_one_line s : one_line (json_string s).
Proof.
  unfold json_string. apply one_line_app; [repeat constructor; discriminate |].
  apply one_line_app; [| repeat constructor; discriminate].
  induction s as [| c s IH]; simpl; [constructor |].
  apply one_line_app; [apply json_escape_char_one_line | exact IH].
Qed.

Lemma join_one_line sep parts :
  one_line sep -> Forall one_line parts -> one_line (join sep parts).
Proof.
  intros Hs. induction parts as [| p rest IH]; intros F; [constructor |].
  inversion F; subst. destruct rest as [| q rest]; [assumption |].
  change (join sep (p :: q :: rest)) with (p ++ sep ++ join sep (q :: rest)).
  apply one_line_app; [assumption |]. apply one_line_app; [assumption | now apply IH].
Qed.

(** [json.dumps] writes no raw newline. *)
Lemma json_dumps_one_line : forall v, one_line (json_dumps v).
Proof.
  fix IH 1. intros [s | z | b | fields]; cbn [json_dumps].
  - apply json_string_one_line.
  - apply str_of_Z_one_line.
  - destruct b; repeat constructor; discriminate.
  - apply one_line_app; [repeat constructor; discriminate |].
    apply one_line_app; [| repeat constructor; discriminate].
    apply join_one_line; [repeat constructor; discriminate |].
    induction fields as [| [k x] rest IHr]; cbn [map]; constructor; [| exact IHr].
    cbn [fst snd]. apply one_line_app; [apply json_string_one_line |].
    apply one_line_app; [repeat constructor; discriminate | apply IH].
Qed.

Lemma count_newlines_app a b :
  count_newlines (a ++ b) = count_newlines a + count_newlines b.
Proof. unfold count_newlines. apply count_occ_app. Qed.

Lemma count_newlines_one_line s : one_line s -> count_newlines s = 0.
Proof.
  unfold one_line, count_newlines. intros F. apply count_occ_not_In.
  intros Hin. rewrite List.Forall_forall in F. now apply (F NL).
Qed.

Lemma lines_from_count base source_path : forall articles i,
  count_newlines (lines_from base source_path i articles) = List.length articles.
Proof.
  induction articles as [| a rest IH]; intros i; [reflexivity |].
  cbn [lines_from]. rewrite !count_newlines_app, IH.
  rewrite (count_newlines_one_line _ (json_dumps_one_line _)). reflexivity.
Qed.

(** C9.  Saving appends.  When the output file can be opened,
    [save_articles_jsonl] leaves what the file [<stem>.jsonl] holds in
    place and writes, after it, one line per article; no other file
    changes.  Saving the same articles again appends the same lines once
    more: the file then holds its old content followed by the lines
    twice, so a second run does not reproduce the result of the first. *)
Theorem C9_append_only (articles : list Article) (source_path out_dir : str) (w : World) :
  w_denied w (out_file_of source_path out_dir) = false ->
  let out_file := out_file_of source_path out_dir in
  let old := default [] (w_files w !! out_file) in
  let new := lines_from (path_stem source_path) source_path 1 articles in
  out_file = path_join out_dir (path_stem source_path ++ u ".jsonl") /\
  count_newlines new = List.length articles /\
  exists w1 w2,
    save_articles_jsonl articles source_path out_dir w = Ok (out_file, w1) /\
    w_files w1 !! out_file = Some (old ++ new) /\
    (forall other, other <> out_file -> w_files w1 !! other = w_files w !! other) /\
    save_articles_jsonl articles source_path out_dir w1 = Ok (out_file, w2) /\
    w_files w2 !! out_file = Some (old ++ new ++ new) /\
    (articles <> [] -> w_files w2 !! out_file <> w_files w1 !! out_file).
Proof.
  intros Hd out_file old new. change (w_denied w out_file = false) in Hd.
  split; [reflexivity |].
  split; [apply lines_from_count |].
  exists (with_file w out_file (old ++ new)),
         (with_file (with_file w out_file (old ++ new)) out_file ((old ++ new) ++ new)).
  assert (H1 : save_articles_jsonl articles source_path out_dir w =
               Ok (out_file, with_file w out_file (old ++ new))).
  { unfold save_articles_jsonl, open_append. fold out_file. now rewrite Hd. }
  assert (L1 : w_files (with_file w out_file (old ++ new)) !! out_file = Some (old ++ new))
    by (cbn; apply lookup_insert_eq).
  split; [exact H1 |]. split; [exact L1 |]. split.
  - intros other Hne. cbn. now apply lookup_insert_ne.
  - split.
    + unfold save_articles_jsonl, open_append. fold out_file.
      change (w_denied (with_file w out_file (old ++ new)) out_file) with (w_denied w out_file).
      rewrite Hd. cbn [ebind]. rewrite L1. reflexivity.
    + split.
      * cbn. rewrite lookup_insert_eq. now rewrite <- app_assoc.
      * intros Hne. cbn [with_file w_files]. rewrite !lookup_insert_eq.
        intros Heq. inversion Heq as [Heq'].
        apply (f_equal (@List.length N)) in Heq'. rewrite !length_app in Heq'.
        assert (0 < List.length new).
        { subst new. destruct articles as [| a rest]; [congruence |].
          cbn [lines_from]. rewrite !length_app. simpl. lia. }
        lia.
Qed.

(** ** The patterns of the script compile *)

Lemma heading_word_compiled : re_compile heading_word_src re_I = Some heading_word.
Proof. vm_compute. reflexivity. Qed.

Lemma bold_heading_compiled : re_compile bold_heading_src re_I = Some bold_heading.
Proof. vm_compute. reflexivity. Qed.

Lemma article_number_compiled : re_compile article_number_src re_I = Some article_number.
Proof. vm_compute. reflexivity. Qed.

Lemma default_paragraph_pattern_compiled :
  re_compile (paragraph_pattern_source DEFAULT_PATTERNS) re_IM = Some default_paragraph_pattern.
Proof. vm_compute. reflexivity. Qed.

Lemma default_text_pattern_compiled :
  re_compile (text_pattern_source DEFAULT_PATTERNS) re_IM = Some default_text_pattern.
Proof. vm_compute. reflexivity. Qed.

(** ** Runs on the sample inputs *)

Lemma C1_witness :
  exists r,
    extract_articles_from_docx (one_file plain_text) (u "in/a.docx") DEFAULT_PATTERNS
      = Ok [r] /\
    a_header r = u "(full document)" /\
    meta_of r = [(u "fallback", JBool true)].
Proof.
  destruct (C1_first_success_wins (one_file plain_text) (u "in/a.docx") DEFAULT_PATTERNS
              plain_text None) as (_ & _ & H).
  - vm_compute. reflexivity.
  - vm_compute. reflexivity.
  - destruct (H eq_refl None) as (_ & _ & H3); [vm_compute; reflexivity |].
    destruct (H3 eq_refl) as (r & Hr & Hh & _ & Hm). exists r. auto.
Defined.

Lemma C3_witness :
  exists arts,
    split_by_paragraph_markers (paragraphs_to_text three_articles) DEFAULT_PATTERNS
      = Ok (Some arts) /\
    List.length arts = 3.
Proof.
  destruct (C3_paragraph_spans three_articles DEFAULT_PATTERNS default_paragraph_pattern)
    as (arts & H & Hl & _).
  - vm_compute. reflexivity.
  - vm_compute. discriminate.
  - exists arts. split; [exact H | exact Hl].
Defined.

Lemma C5_witness :
  exists pat,
    re_compile (paragraph_pattern_source DEFAULT_PATTERNS) re_IM = Some pat /\
    List.length (boundaries_from pat 0 (paragraphs_to_text three_articles)) = 3.
Proof.
  destruct (split_by_paragraph_markers (paragraphs_to_text three_articles) DEFAULT_PATTERNS)
    as [[arts |] |] eqn:E; try (vm_compute in E; discriminate).
  destruct (proj1 C5_spans_contiguous _ _ _ E) as (pat & Hc & Hl & _).
  exists pat. split; [exact Hc |]. rewrite <- Hl.
  vm_compute in E. inversion E. reflexivity.
Defined.

(** The claim of C5 fails in the paragraph tier: the first span of the
    sample ends at paragraph 1 and the second starts at paragraph 2. *)
Lemma C5_counterexample :
  exists a b rest,
    split_by_paragraph_markers (paragraphs_to_text three_articles) DEFAULT_PATTERNS
      = Ok (Some (a :: b :: rest)) /\
    span_end a = Some 1%Z /\ span_start b = Some 2%Z /\ span_end a <> span_start b.
Proof.
  eexists _, _, _. split; [vm_compute; reflexivity |].
  split; [reflexivity |]. split; [reflexivity |]. discriminate.
Qed.

(** C6.  No default pattern matches a paragraph that opens with "Ст. 5.":
    the second pattern asks for a question mark after the dot, so the
    paragraph is no boundary and the document falls through to the
    fallback record; "Ст.? 5." is what that pattern matches. *)
Theorem C6_abbreviation_not_matched :
  Forall (fun p => exists c, re_compile p re_IM = Some c /\
                             re_search c (u "Ст. 5. Общие положения") = None)
         DEFAULT_PATTERNS /\
  boundaries_from default_paragraph_pattern 0 (paragraphs_to_text abbreviated_heading) = [] /\
  extract_articles_from_docx (one_file abbreviated_heading) (u "in/a.docx") DEFAULT_PATTERNS
    = Ok [fallback_article (u "Ст. 5. Общие положения")] /\
  (exists c m, re_compile (nth 1 DEFAULT_PATTERNS []) re_IM = Some c /\
               re_search c (u "Ст.? 5. Общие положения") = Some m).
Proof.
  split.
  - repeat constructor; eexists; (split; [vm_compute; reflexivity | vm_compute; reflexivity]).
  - split; [vm_compute; reflexivity |]. split; [vm_compute; reflexivity |].
    eexists _, _. split; [vm_compute; reflexivity | vm_compute; reflexivity].
Qed.




Lemma C9_witness :
  exists w1,
    save_articles_jsonl [fallback_article (u "x")] (u "in/a.docx") (u "out")
                        (one_file plain_text)
      = Ok (out_file_of (u "in/a.docx") (u "out"), w1) /\
    out_file_of (u "in/a.docx") (u "out") = u "out/a.jsonl" /\
    count_newlines (default [] (w_files w1 !! out_file_of (u "in/a.docx") (u "out"))) = 1.
Proof.
  destruct (C9_append_only [fallback_article (u "x")] (u "in/a.docx") (u "out")
              (one_file plain_text)) as (Hf & Hn & w1 & w2 & H1 & H2 & _).
  - reflexivity.
  - exists w1. split; [exact H1 |]. split; [vm_compute; reflexivity |].
    rewrite H2. vm_compute. reflexivity.
Defined.



(** ** The matcher against the meaning of expressions *)

Section MatcherCorrect.
Variables (fl : flags) (s : str).

Lemma on_char_sound ok i caps j c :
  In (j, c) (on_char s i caps ok) -> matches_char s ok i j /\ c = caps.
Proof.
  unfold on_char, matches_char. destruct (char_at s i) as [d |]; [| intros []].
  destruct (ok d) eqn:E; [| intros []]. intros [H | []]. inversion H; subst. eauto.
Qed.

Lemma on_char_complete ok i caps j :
  matches_char s ok i j -> In (j, caps) (on_char s i caps ok).
Proof.
  unfold on_char, matches_char. intros (c & Hc & Hok & ->). rewrite Hc, Hok. now left.
Qed.

Lemma guard_iff b i caps j c : In (j, c) (guard b i caps) <-> b = true /\ j = i /\ c = caps.
Proof.
  unfold guard. destruct b; simpl.
  - split; [intros [H | []]; inversion H; auto | intros (_ & -> & ->); now left].
  - split; [intros [] | intros (H & _); discriminate].
Qed.

Lemma star_loop_sound (step : nat -> captures -> list (nat * captures)) (R : nat -> nat -> Prop) :
  (forall i caps j c, In (j, c) (step i caps) -> R i j) ->
  forall n i caps j c, In (j, c) (star_loop step n i caps) -> star_of R i j.
Proof.
  intros Hstep. induction n as [| n IH]; intros i caps j c H; simpl in H.
  - destruct H as [H | []]. inversion H; subst. constructor.
  - apply in_app_or in H. destruct H as [H | [H | []]].
    + apply in_flat_map in H. destruct H as ([k ck] & Hk & Hj). cbn [fst snd] in Hj.
      destruct (i <? k) eqn:E; [| destruct Hj]. apply Nat.ltb_lt in E.
      eapply star_more; [eapply Hstep; exact Hk | exact E | eapply IH; exact Hj].
    + inversion H; subst. constructor.
Qed.

Lemma star_loop_complete (step : nat -> captures -> list (nat * captures))
    (R : nat -> nat -> Prop) :
  (forall i caps j, R i j -> exists c, In (j, c) (step i caps)) ->
  (forall i j, R i j -> i < j -> j <= List.length s) ->
  forall i j, star_of R i j ->
  forall n caps, List.length s - i < n -> exists c, In (j, c) (star_loop step n i caps).
Proof.
  intros Hstep Hbound i j H. induction H as [i | i k j Hik Hlt Hkj IH]; intros n caps Hn.
  - exists caps. destruct n; simpl; [now left |]. apply in_or_app. right. now left.
  - destruct n as [| n]; [lia |].
    destruct (Hstep i caps k Hik) as (ck & Hck).
    pose proof (Hbound i k Hik Hlt) as Hk.
    destruct (IH n ck) as (c & Hc); [lia |].
    exists c. simpl. apply in_or_app. left. apply in_flat_map.
    exists (k, ck). split; [exact Hck |]. cbn [fst snd].
    apply Nat.ltb_lt in Hlt. now rewrite Hlt.
Qed.

Lemma ends_sound r : forall i caps j c,
  In (j, c) (ends fl s r i caps) -> Matches fl s r i j.
Proof.
  induction r as [| p | | neg items | | | pos | a IHa b IHb | a IHa b IHb | a IHa | a IHa
                 | a IHa | g a IHa]; intros i caps j c H; cbn [ends Matches] in *.
  - destruct H as [H | []]. now inversion H.
  - eapply on_char_sound; exact H.
  - eapply on_char_sound; exact H.
  - eapply on_char_sound; exact H.
  - apply guard_iff in H. tauto.
  - apply guard_iff in H. tauto.
  - apply guard_iff in H. tauto.
  - apply in_flat_map in H. destruct H as ([k ck] & Hk & Hj). cbn [fst snd] in Hj.
    exists k. split; [eapply IHa; exact Hk | eapply IHb; exact Hj].
  - apply in_app_or in H. destruct H as [H | H]; [left; eapply IHa | right; eapply IHb];
      exact H.
  - eapply star_loop_sound; [exact IHa | exact H].
  - apply in_flat_map in H. destruct H as ([k ck] & Hk & Hj). cbn [fst snd] in Hj.
    exists k. split; [eapply IHa; exact Hk |].
    eapply star_loop_sound; [exact IHa | exact Hj].
  - apply in_app_or in H. destruct H as [H | [H | []]]; [left; eapply IHa; exact H |].
    right. now inversion H.
  - apply in_map_iff in H. destruct H as ([k ck] & Hk & Hj). inversion Hk; subst.
    eapply IHa; exact Hj.
Qed.

Lemma ends_complete r : forall i caps j,
  Matches fl s r i j -> exists c, In (j, c) (ends fl s r i caps).
Proof.
  induction r as [| p | | neg items | | | pos | a IHa b IHb | a IHa b IHb | a IHa | a IHa
                 | a IHa | g a IHa]; intros i caps j H; cbn [ends Matches] in *.
  - subst. exists caps. now left.
  - exists caps. now apply on_char_complete.
  - exists caps. now apply on_char_complete.
  - exists caps. now apply on_char_complete.
  - exists caps. apply guard_iff. tauto.
  - exists caps. apply guard_iff. tauto.
  - exists caps. apply guard_iff. tauto.
  - destruct H as (k & Ha & Hb). destruct (IHa i caps k Ha) as (ck & Hk).
    destruct (IHb k ck j Hb) as (c & Hc). exists c. apply in_flat_map.
    exists (k, ck). split; [exact Hk | exact Hc].
  - destruct H as [H | H].
    + destruct (IHa i caps j H) as (c & Hc). exists c. apply in_or_app. now left.
    + destruct (IHb i caps j H) as (c & Hc). exists c. apply in_or_app. now right.
  - eapply star_loop_complete; [exact IHa | | exact H | lia].
    intros x y Hxy Hlt. destruct (IHa x [] y Hxy) as (c & Hc).
    apply ends_reach in Hc. unfold in_reach in Hc. lia.
  - destruct H as (k & Ha & Hs). destruct (IHa i caps k Ha) as (ck & Hk).
    destruct (star_loop_complete (ends fl s a) (Matches fl s a)) with
      (i := k) (j := j) (n := S (List.length s - k)) (caps := ck) as (c & Hc);
      [exact IHa | | exact Hs | lia |].
    { intros x y Hxy Hlt. destruct (IHa x [] y Hxy) as (c & Hc).
      apply ends_reach in Hc. unfold in_reach in Hc. lia. }
    exists c. apply in_flat_map. exists (k, ck). split; [exact Hk | exact Hc].
  - destruct H as [H | ->].
    + destruct (IHa i caps j H) as (c & Hc). exists c. apply in_or_app. now left.
    + exists caps. apply in_or_app. right. now left.
  - destruct (IHa i caps j H) as (c & Hc). eexists. apply in_map_iff.
    exists (j, c). split; [reflexivity | exact Hc].
Qed.

Lemma Matches_reach r i j : Matches fl s r i j -> in_reach s i j.
Proof.
  intros H. destruct (ends_complete r i [] j H) as (c & Hc). eapply ends_reach; exact Hc.
Qed.

End MatcherCorrect.

(** ** The leftmost match *)

Lemma match_at_first p s i :
  match_at p s false i =
  match ends (pat_flags p) s (pat_re p) i [] with
  | (j, c) :: _ => Some {| m_start := i; m_end := j; m_caps := c |}
  | [] => None
  end.
Proof.
  unfold match_at. cbn [negb orb].
  replace (List.filter (fun _ : nat * captures => true) (ends (pat_flags p) s (pat_re p) i []))
    with (ends (pat_flags p) s (pat_re p) i []); [reflexivity |].
  induction (ends (pat_flags p) s (pat_re p) i []) as [| x l IH]; simpl; congruence.
Qed.

Lemma match_at_none p s i :
  match_at p s false i = None -> forall j, ~ Matches (pat_flags p) s (pat_re p) i j.
Proof.
  rewrite match_at_first. intros H j Hm.
  destruct (ends_complete (pat_flags p) s (pat_re p) i [] j Hm) as (c & Hc).
  destruct (ends (pat_flags p) s (pat_re p) i []) as [| [k ck] l]; [destruct Hc | discriminate].
Qed.

Lemma search_from_spec p s : forall n i,
  match search_from p s n i with
  | Some m =>
      i <= m_start m < i + n /\
      hd_error (ends (pat_flags p) s (pat_re p) (m_start m) []) = Some (m_end m, m_caps m) /\
      forall k j, i <= k < m_start m -> ~ Matches (pat_flags p) s (pat_re p) k j
  | None => forall k j, i <= k < i + n -> ~ Matches (pat_flags p) s (pat_re p) k j
  end.
Proof.
  induction n as [| n IH]; intros i; cbn [search_from].
  - intros k j Hk. lia.
  - destruct (match_at p s false i) as [m |] eqn:E.
    + rewrite match_at_first in E.
      destruct (ends (pat_flags p) s (pat_re p) i []) as [| [j c] l] eqn:Ee; [discriminate |].
      inversion E; subst; cbn. split; [lia |]. split; [now rewrite Ee |].
      intros k j' Hk. lia.
    + specialize (IH (S i)). destruct (search_from p s n (S i)) as [m |].
      * destruct IH as (Hr & Hh & Hl). split; [lia |]. split; [exact Hh |].
        intros k j Hk. destruct (Nat.eq_dec k i) as [-> | Hne].
        -- now apply match_at_none.
        -- apply Hl. lia.
      * intros k j Hk. destruct (Nat.eq_dec k i) as [-> | Hne].
        -- now apply match_at_none.
        -- apply IH. lia.
Qed.

(** [re.search] reports the first match of the leftmost position that has one. *)
Lemma re_search_some p s m :
  re_search p s = Some m ->
  m_start m <= List.length s /\
  hd_error (ends (pat_flags p) s (pat_re p) (m_start m) []) = Some (m_end m, m_caps m) /\
  Matches (pat_flags p) s (pat_re p) (m_start m) (m_end m) /\
  forall k j, k < m_start m -> ~ Matches (pat_flags p) s (pat_re p) k j.
Proof.
  unfold re_search. intros H. pose proof (search_from_spec p s (S (List.length s)) 0) as Hs.
  rewrite H in Hs. destruct Hs as (Hr & Hh & Hl).
  split; [lia |]. split; [exact Hh |]. split.
  - apply ends_sound with (caps := []) (c := m_caps m).
    destruct (ends (pat_flags p) s (pat_re p) (m_start m) []) as [| x l]; [discriminate |].
    inversion Hh; subst. now left.
  - intros k j Hk. apply Hl. lia.
Qed.

Lemma re_search_none p s :
  re_search p s = None ->
  forall k j, k <= List.length s -> ~ Matches (pat_flags p) s (pat_re p) k j.
Proof.
  unfold re_search. intros H. pose proof (search_from_spec p s (S (List.length s)) 0) as Hs.
  rewrite H in Hs. intros k j Hk. apply Hs. lia.
Qed.

Lemma re_search_found p s : found (re_search p s) = true <-> matches_somewhere p s.
Proof.
  unfold matches_somewhere. destruct (re_search p s) as [m |] eqn:E; cbn [found].
  - apply re_search_some in E. destruct E as (Hr & _ & Hm & _).
    split; [intros _; eauto | reflexivity].
  - split; [discriminate |]. intros (i & j & Hi & Hm).
    exfalso. eapply re_search_none; eauto.
Qed.

(** ** Letter case and the character classes *)

Ltac bool_prop H :=
  repeat first
    [ rewrite andb_true_iff in H | rewrite orb_true_iff in H | rewrite negb_true_iff in H
    | rewrite andb_false_iff in H | rewrite orb_false_iff in H | rewrite negb_false_iff in H
    | rewrite N.leb_le in H | rewrite N.leb_gt in H
    | rewrite N.eqb_eq in H | rewrite N.eqb_neq in H ].

Lemma lower_cases c : lower c = c \/ (cased c /\ cased (lower c)).
Proof.
  unfold lower, cased, in_range.
  destruct ((0x41 <=? c) && (c <=? 0x5A))%N eqn:E1; [bool_prop E1; right; lia |].
  destruct ((0xC0 <=? c) && (c <=? 0xDE) && negb (c =? 0xD7))%N eqn:E2;
    [bool_prop E2; right; lia |].
  destruct ((0x400 <=? c) && (c <=? 0x40F))%N eqn:E3; [bool_prop E3; right; lia |].
  destruct ((0x410 <=? c) && (c <=? 0x42F))%N eqn:E4; [bool_prop E4; right; lia |].
  now left.
Qed.

Lemma upper_cases c : upper c = c \/ (cased c /\ cased (upper c)).
Proof.
  unfold upper, cased, in_range.
  destruct ((0x61 <=? c) && (c <=? 0x7A))%N eqn:E1; [bool_prop E1; right; lia |].
  destruct ((0xE0 <=? c) && (c <=? 0xFE) && negb (c =? 0xF7))%N eqn:E2;
    [bool_prop E2; right; lia |].
  destruct ((0x450 <=? c) && (c <=? 0x45F))%N eqn:E3; [bool_prop E3; right; lia |].
  destruct ((0x430 <=? c) && (c <=? 0x44F))%N eqn:E4; [bool_prop E4; right; lia |].
  now left.
Qed.

Lemma in_range_false lo hi x : (x < lo \/ hi < x)%N -> in_range lo hi x = false.
Proof. unfold in_range. intros H. apply andb_false_iff. rewrite !N.leb_gt. exact H. Qed.

Lemma cased_not_space x : cased x -> is_space x = false.
Proof.
  unfold cased, is_space. intros H.
  repeat (apply orb_false_iff; split);
    first [apply in_range_false; lia | apply N.eqb_neq; lia].
Qed.

Lemma cased_not_digit x : cased x -> is_digit x = false.
Proof.
  unfold cased, is_digit. intros H.
  apply not_true_is_false. intros Hex. apply existsb_exists in Hex.
  destruct Hex as (b & Hb & Hr). unfold in_range in Hr. bool_prop Hr.
  unfold digit_blocks in Hb. simpl in Hb.
  repeat (destruct Hb as [<- | Hb]; [lia |]). destruct Hb.
Qed.

Lemma set_has_cat k x : set_has [CCat k true] x = in_cat k x.
Proof. unfold set_has, existsb, item_has. now destruct (in_cat k x). Qed.

Lemma cat_class k c :
  (forall x, cased x -> in_cat k x = false) ->
  class_has re_I false [CCat k true] c = in_cat k c.
Proof.
  intros Hk. unfold class_has. cbn [IGNORECASE re_I xorb]. rewrite !set_has_cat.
  destruct (lower_cases c) as [-> | (Hc & Hl)];
    destruct (upper_cases c) as [-> | (Hc' & Hu)];
    rewrite ?(Hk _ Hl), ?(Hk _ Hu); try rewrite (Hk c) by assumption;
    rewrite ?orb_false_r, ?orb_diag; reflexivity.
Qed.

Lemma space_class c : class_has re_I false [CCat CatSpace true] c = is_space c.
Proof. apply (cat_class CatSpace). exact cased_not_space. Qed.

Lemma digit_class c : class_has re_I false [CCat CatDigit true] c = is_digit c.
Proof. apply (cat_class CatDigit). exact cased_not_digit. Qed.

Lemma numero_lit c : lit_eq re_I numero c = true <-> c = numero.
Proof.
  unfold lit_eq. cbn [IGNORECASE re_I].
  replace (lower numero) with numero by reflexivity.
  rewrite N.eqb_eq. split; [| now intros ->].
  destruct (lower_cases c) as [-> | (_ & Hl)]; [auto |].
  unfold cased in Hl. unfold numero. lia.
Qed.

Lemma lit_eq_ci p c : lit_eq re_I p c = true <-> lower c = lower p.
Proof. unfold lit_eq. cbn [IGNORECASE re_I]. rewrite N.eqb_eq. split; congruence. Qed.

(** ** Parts of the subject *)

Lemma segment_nil (s : str) i : i <= List.length s -> segment s i i [].
Proof.
  intros H. exists (firstn i s), (skipn i s). simpl. rewrite firstn_skipn.
  rewrite length_firstn. split; [reflexivity |]. lia.
Qed.

Lemma segment_bound (s : str) i j w :
  segment s i j w -> j = i + List.length w /\ j <= List.length s.
Proof.
  intros (pre & post & -> & -> & ->). rewrite !length_app. lia.
Qed.

Lemma segment_compose (s : str) i j k w1 w2 :
  segment s i j w1 -> segment s j k w2 -> segment s i k (w1 ++ w2).
Proof.
  intros (pre1 & post1 & E1 & -> & ->) (pre2 & post2 & E2 & Hj & ->).
  assert (H : (pre1 ++ w1) ++ post1 = pre2 ++ w2 ++ post2)
    by (rewrite <- app_assoc; congruence).
  apply app_inj_1 in H; [| rewrite length_app; lia]. destruct H as (<- & ->).
  exists pre1, post2. rewrite <- app_assoc. split; [assumption |].
  rewrite !length_app. lia.
Qed.

Lemma segment_split (s : str) i k w1 w2 :
  segment s i k (w1 ++ w2) ->
  segment s i (i + List.length w1) w1 /\ segment s (i + List.length w1) k w2.
Proof.
  intros (pre & post & E & -> & ->). split.
  - exists pre, (w2 ++ post). rewrite E, <- app_assoc. auto.
  - exists (pre ++ w1), post. rewrite E, <- !app_assoc, !length_app. split; [reflexivity |]. lia.
Qed.

Lemma segment_char (s : str) i c : char_at s i = Some c <-> segment s i (S i) [c].
Proof.
  unfold char_at. split.
  - intros H. apply nth_error_split in H. destruct H as (l1 & l2 & -> & <-).
    exists l1, l2. simpl. split; [reflexivity |]. lia.
  - intros (pre & post & -> & -> & _). rewrite nth_error_app2 by lia.
    now rewrite Nat.sub_diag.
Qed.


Section Denotations.
Variables (fl : flags) (s : str).

Lemma denotes_ext r (L L' : str -> Prop) :
  (forall w, L w <-> L' w) -> denotes fl s r L -> denotes fl s r L'.
Proof.
  intros Hext H i j. rewrite (H i j). split; intros (w & Hw & HL); exists w;
    (split; [exact Hw | now apply Hext]).
Qed.

Lemma denotes_char r (ok : N -> bool) :
  (forall i j, Matches fl s r i j <-> matches_char s ok i j) ->
  denotes fl s r (fun w => exists c, w = [c] /\ ok c = true).
Proof.
  intros Hr i j. rewrite Hr. unfold matches_char. split.
  - intros (_ & c & Hc & Hok & ->). exists [c]. split; [now apply segment_char | eauto].
  - intros (w & Hw & c & -> & Hok). pose proof (segment_bound _ _ _ _ Hw) as (Hj & Hl).
    simpl in Hj. replace j with (S i) in * by lia. split; [lia |].
    exists c. split; [now apply segment_char | auto].
Qed.

Lemma denotes_lit p : denotes fl s (Lit p) (fun w => exists c, w = [c] /\ lit_eq fl p c = true).
Proof. apply denotes_char. reflexivity. Qed.

Lemma denotes_class neg items :
  denotes fl s (Class neg items) (fun w => exists c, w = [c] /\ class_has fl neg items c = true).
Proof. apply denotes_char. reflexivity. Qed.

Lemma denotes_seq a b (La Lb : str -> Prop) :
  denotes fl s a La -> denotes fl s b Lb ->
  denotes fl s (Seq a b) (fun w => exists w1 w2, w = w1 ++ w2 /\ La w1 /\ Lb w2).
Proof.
  intros Ha Hb i j. cbn [Matches]. split.
  - intros (Hi & k & Hik & Hkj).
    destruct (proj1 (Ha i k) (conj Hi Hik)) as (w1 & S1 & L1).
    pose proof (segment_bound _ _ _ _ S1) as (_ & Hk).
    destruct (proj1 (Hb k j) (conj Hk Hkj)) as (w2 & S2 & L2).
    exists (w1 ++ w2). split; [eapply segment_compose; eauto | eauto].
  - intros (w & Hw & w1 & w2 & -> & L1 & L2).
    apply segment_split in Hw. destruct Hw as (S1 & S2).
    destruct (proj2 (Ha _ _) (ex_intro _ w1 (conj S1 L1))) as (Hi & Hik).
    destruct (proj2 (Hb _ _) (ex_intro _ w2 (conj S2 L2))) as (_ & Hkj).
    split; [exact Hi | eauto].
Qed.

Lemma denotes_alt a b (La Lb : str -> Prop) :
  denotes fl s a La -> denotes fl s b Lb ->
  denotes fl s (Alt a b) (fun w => La w \/ Lb w).
Proof.
  intros Ha Hb i j. cbn [Matches]. split.
  - intros (Hi & [H | H]).
    + destruct (proj1 (Ha i j) (conj Hi H)) as (w & Sw & Lw). eauto.
    + destruct (proj1 (Hb i j) (conj Hi H)) as (w & Sw & Lw). eauto.
  - intros (w & Sw & [Lw | Lw]).
    + destruct (proj2 (Ha i j) (ex_intro _ w (conj Sw Lw))). auto.
    + destruct (proj2 (Hb i j) (ex_intro _ w (conj Sw Lw))). auto.
Qed.

Lemma denotes_group g a (La : str -> Prop) :
  denotes fl s a La -> denotes fl s (Group g a) La.
Proof. intros Ha i j. exact (Ha i j). Qed.

Lemma denotes_opt a (La : str -> Prop) :
  denotes fl s a La -> denotes fl s (Opt a) (fun w => La w \/ w = []).
Proof.
  intros Ha i j. cbn [Matches]. split.
  - intros (Hi & [H | ->]).
    + destruct (proj1 (Ha i j) (conj Hi H)) as (w & Sw & Lw). eauto.
    + exists []. split; [now apply segment_nil | now right].
  - intros (w & Sw & [Lw | ->]).
    + destruct (proj2 (Ha i j) (ex_intro _ w (conj Sw Lw))). auto.
    + pose proof (segment_bound _ _ _ _ Sw) as (Hj & Hl). simpl in Hj.
      split; [lia |]. right. lia.
Qed.

(** A repetition of single characters. *)
Lemma star_chars_segment (ok : N -> bool) i j :
  star_of (matches_char s ok) i j -> i <= List.length s ->
  exists w, segment s i j w /\ forallb ok w = true.
Proof.
  induction 1 as [i | i k j (c & Hc & Hok & ->) _ _ IH]; intros Hi.
  - exists []. split; [now apply segment_nil | reflexivity].
  - apply segment_char in Hc. pose proof (segment_bound _ _ _ _ Hc) as (_ & Hk).
    destruct (IH Hk) as (w & Sw & Lw). exists ([c] ++ w).
    split; [eapply segment_compose; eauto |]. simpl. now rewrite Hok.
Qed.

Lemma segment_star_chars (ok : N -> bool) : forall w i j,
  segment s i j w -> forallb ok w = true -> star_of (matches_char s ok) i j.
Proof.
  induction w as [| c w IH]; intros i j Sw Lw.
  - pose proof (segment_bound _ _ _ _ Sw) as (Hj & _). simpl in Hj.
    replace j with i by lia. constructor.
  - change (c :: w) with ([c] ++ w) in Sw. apply segment_split in Sw.
    destruct Sw as (S1 & S2). simpl in S1, S2, Lw. apply andb_true_iff in Lw.
    replace (i + 1) with (S i) in * by lia.
    apply star_more with (k := S i); [| lia | apply IH; tauto].
    exists c. split; [now apply segment_char | tauto].
Qed.

Lemma denotes_star_chars r (ok : N -> bool) :
  (forall i j, Matches fl s r i j <-> matches_char s ok i j) ->
  denotes fl s (Star r) (fun w => forallb ok w = true).
Proof.
  intros Hr i j. cbn [Matches].
  assert (E : star_of (Matches fl s r) i j <-> star_of (matches_char s ok) i j).
  { split; induction 1; econstructor; eauto; now apply Hr. }
  rewrite E. split.
  - intros (Hi & H). now apply star_chars_segment.
  - intros (w & Sw & Lw). split; [| eapply segment_star_chars; eauto].
    pose proof (segment_bound _ _ _ _ Sw). lia.
Qed.

Lemma denotes_plus_chars r (ok : N -> bool) :
  (forall i j, Matches fl s r i j <-> matches_char s ok i j) ->
  denotes fl s (Plus r) (fun w => w <> [] /\ forallb ok w = true).
Proof.
  intros Hr i j. cbn [Matches].
  assert (E : forall k, star_of (Matches fl s r) k j <-> star_of (matches_char s ok) k j).
  { intros k. split; induction 1; econstructor; eauto; now apply Hr. }
  split.
  - intros (Hi & k & Hik & Hkj). apply Hr in Hik. apply E in Hkj.
    destruct Hik as (c & Hc & Hok & ->). apply segment_char in Hc.
    pose proof (segment_bound _ _ _ _ Hc) as (_ & Hk).
    destruct (star_chars_segment ok _ _ Hkj Hk) as (w & Sw & Lw).
    exists ([c] ++ w). split; [eapply segment_compose; eauto |].
    split; [discriminate |]. simpl. now rewrite Hok.
  - intros (w & Sw & Hne & Lw). destruct w as [| c w]; [congruence |].
    pose proof (segment_bound _ _ _ _ Sw) as (Hj & Hl).
    change (c :: w) with ([c] ++ w) in Sw. apply segment_split in Sw.
    destruct Sw as (S1 & S2). simpl in S1, S2, Lw. apply andb_true_iff in Lw.
    replace (i + 1) with (S i) in * by lia.
    split; [lia |]. exists (S i). split.
    + apply Hr. exists c. split; [now apply segment_char | tauto].
    + apply E. eapply segment_star_chars; [exact S2 | tauto].
Qed.

End Denotations.

(** ** The expressions of the script *)



Lemma article_number_re :
  article_number =
  {| pat_re := Seq (keyword_re (u "Статья") (u "Стаття") (u "Article"))
                   (number_tail (Group 1 (Plus DIGIT)));
     pat_flags := re_I |}.
Proof. reflexivity. Qed.

Section ScriptExpressions.
Variable s : str.

Lemma denotes_lits : forall kw, kw <> [] ->
  denotes re_I s (lits kw) (fun w => str_lower w = str_lower kw).
Proof.
  induction kw as [| c rest IH]; intros Hne; [congruence |].
  destruct rest as [| c' rest].
  - eapply denotes_ext; [| apply denotes_lit]. intros w. cbn. split.
    + intros (d & -> & Hd). apply lit_eq_ci in Hd. cbn. now rewrite Hd.
    + destruct w as [| d [| d' w]]; cbn; intros H; inversion H.
      exists d. split; [reflexivity |]. now apply lit_eq_ci.
  - change (lits (c :: c' :: rest)) with (Seq (Lit c) (lits (c' :: rest))).
    eapply denotes_ext; [| apply denotes_seq; [apply denotes_lit | apply IH; discriminate]].
    intros w. cbn beta. split.
    + intros (w1 & w2 & -> & (d & -> & Hd) & H2). apply lit_eq_ci in Hd.
      unfold str_lower in *. cbn [app map] in *. now rewrite Hd, H2.
    + destruct w as [| d w]; [discriminate |]. unfold str_lower. cbn [map]. intros H.
      injection H as Hd Hw. exists [d], w. split; [reflexivity |].
      split; [| exact Hw]. exists d. split; [reflexivity |]. now apply lit_eq_ci.
Qed.

Lemma denotes_keyword k1 k2 k3 :
  str_lower k1 = u "статья" -> str_lower k2 = u "стаття" -> str_lower k3 = u "article" ->
  denotes re_I s (keyword_re k1 k2 k3) is_keyword_ci.
Proof.
  intros H1 H2 H3.
  assert (k1 <> [] /\ k2 <> [] /\ k3 <> []) as (N1 & N2 & N3)
    by (repeat split; intros ->; discriminate).
  eapply denotes_ext;
    [| apply denotes_alt; [apply denotes_lits; exact N1 |
       apply denotes_alt; [apply denotes_lits; exact N2 | apply denotes_lits; exact N3]]].
  intros w. cbn beta. rewrite H1, H2, H3. unfold is_keyword_ci, keywords. cbn [In].
  intuition congruence.
Qed.

Lemma denotes_spaces : denotes re_I s (Star WS) spaces.
Proof.
  eapply denotes_ext; [| apply (denotes_star_chars re_I s WS is_space)].
  - reflexivity.
  - intros i j. cbn [Matches WS]. unfold matches_char.
    split; intros (c & Hc & Hok & Hj); exists c; rewrite space_class in *; auto.
Qed.

Lemma denotes_some_spaces : denotes re_I s (Plus WS) (fun w => w <> [] /\ spaces w).
Proof.
  apply (denotes_plus_chars re_I s WS is_space).
  intros i j. cbn [Matches WS]. unfold matches_char.
  split; intros (c & Hc & Hok & Hj); exists c; rewrite space_class in *; auto.
Qed.

Lemma denotes_number : denotes re_I s (Plus DIGIT) (fun w => w <> [] /\ digits w).
Proof.
  apply (denotes_plus_chars re_I s DIGIT is_digit).
  intros i j. cbn [Matches DIGIT]. unfold matches_char.
  split; intros (c & Hc & Hok & Hj); exists c; rewrite digit_class in *; auto.
Qed.

Lemma denotes_numero : denotes re_I s (Opt (Lit numero)) (fun w => w = [] \/ w = [numero]).
Proof.
  eapply denotes_ext; [| apply denotes_opt, denotes_lit]. intros w. cbn beta. split.
  - intros [(c & -> & Hc) | ->]; [right | now left]. apply numero_lit in Hc. now subst.
  - intros [-> | ->]; [now right | left]. exists numero. split; [reflexivity |].
    now apply numero_lit.
Qed.

Lemma denotes_number_tail d :
  denotes re_I s d (fun w => w <> [] /\ digits w) ->
  denotes re_I s (number_tail d)
    (fun w => exists ws1 no ws2 ds, w = ws1 ++ no ++ ws2 ++ ds /\ number_after ws1 no ws2 ds).
Proof.
  intros Hd. unfold number_tail.
  eapply denotes_ext;
    [| apply denotes_seq; [apply denotes_some_spaces |
       apply denotes_seq; [apply denotes_numero |
       apply denotes_seq; [apply denotes_spaces | exact Hd]]]].
  intros w. cbn beta. unfold number_after. split.
  - intros (ws1 & x & -> & (N1 & S1) & no & y & -> & Hno & ws2 & ds & -> & S2 & Nd & Dd).
    exists ws1, no, ws2, ds. tauto.
  - intros (ws1 & no & ws2 & ds & -> & N1 & S1 & Hno & S2 & Nd & Dd).
    exists ws1, (no ++ ws2 ++ ds). split; [reflexivity |]. split; [tauto |].
    exists no, (ws2 ++ ds). split; [reflexivity |]. split; [tauto |].
    exists ws2, ds. tauto.
Qed.

End ScriptExpressions.

(** ** The three tests of the paragraph tier *)









(** ** The match the engine reports *)







Section NumberMatch.
Variable s : str.



End NumberMatch.

Lemma numbered_heading_matches s pre ds post :
  numbered_heading_at s pre ds post ->
  List.length pre <= List.length s /\
  exists j, Matches re_I s (pat_re article_number) (List.length pre) j.
Proof.
  intros (kw & ws1 & no & ws2 & Es & Lk & Hn).
  rewrite article_number_re. cbn [pat_re].
  assert (D : denotes re_I s
                (Seq (keyword_re (u "Статья") (u "Стаття") (u "Article"))
                     (number_tail (Group 1 (Plus DIGIT))))
                (fun w => exists k y, w = k ++ y /\ is_keyword_ci k /\
                   exists a b c d, y = a ++ b ++ c ++ d /\ number_after a b c d)).
  { apply denotes_seq; [apply denotes_keyword; reflexivity |].
    apply denotes_number_tail, denotes_group, denotes_number. }
  destruct (proj2 (D (List.length pre)
                     (List.length pre + List.length (kw ++ ws1 ++ no ++ ws2 ++ ds))))
    as (Hi & Hm).
  - exists (kw ++ ws1 ++ no ++ ws2 ++ ds). split.
    + exists pre, post. rewrite Es at 1. rewrite <- !app_assoc. auto.
    + exists kw, (ws1 ++ no ++ ws2 ++ ds). split; [reflexivity |]. split; [exact Lk |].
      exists ws1, no, ws2, ds. auto.
  - split; [exact Hi | eauto].
Qed.




(** With the default patterns the third test asks that one of them
    matches somewhere in the text. *)
Lemma default_alternation_iff txt :
  matches_somewhere default_paragraph_pattern txt <->
  exists src c, In src DEFAULT_PATTERNS /\ re_compile src re_IM = Some c /\
                matches_somewhere c txt.
Proof.
  unfold matches_somewhere. split.
  - intros (i & j & Hi & [H | [H | H]]).
    + eexists _, _. split; [left; reflexivity |]. split; [vm_compute; reflexivity |].
      exists i, j. split; [exact Hi | exact H].
    + eexists _, _. split; [right; left; reflexivity |]. split; [vm_compute; reflexivity |].
      exists i, j. split; [exact Hi | exact H].
    + eexists _, _. split; [right; right; left; reflexivity |].
      split; [vm_compute; reflexivity |]. exists i, j. split; [exact Hi | exact H].
  - intros (src & c & Hin & Hc & i & j & Hi & H). exists i, j. split; [exact Hi |].
    destruct Hin as [<- | [<- | [<- | []]]]; vm_compute in Hc; inversion Hc; subst c.
    + left. exact H.
    + right. left. exact H.
    + right. right. exact H.
Qed.


(** * Further properties of the script *)

(** ** The loader *)

Lemma strip_idempotent s : strip (strip s) = strip s.
Proof.
  destruct (strip s) as [| c t] eqn:E; [reflexivity |].
  rewrite <- E. apply trimmed_strip, strip_trimmed. rewrite E. discriminate.
Qed.

Lemma nonempty_true_iff (s : str) : nonempty s = true <-> s <> [].
Proof. destruct s; simpl; split; congruence. Qed.

(** X1.  [paragraphs_to_text] drops the paragraphs whose text is blank and
    keeps the others in the order of the document; the text of a record is
    the trimmed text of its paragraph, so it is not empty, has no white
    space at either end, and trimming it again changes nothing. *)
Theorem X1_loader_keeps_nonblank (doc : Doc) :
  map p_text (paragraphs_to_text doc)
    = List.filter nonempty (map (fun p => strip (dp_text p)) doc) /\
  List.length (paragraphs_to_text doc) <= List.length doc /\
  Forall (fun p => p_text p <> [] /\ trimmed (p_text p) /\ strip (p_text p) = p_text p)
         (paragraphs_to_text doc).
Proof.
  split; [| split].
  - induction doc as [| p rest IH]; [reflexivity |]. cbn [paragraphs_to_text map List.filter].
    destruct (nonempty (strip (dp_text p))); cbn [map p_text]; now rewrite IH.
  - induction doc as [| p rest IH]; [reflexivity |]. cbn [paragraphs_to_text].
    destruct (nonempty (strip (dp_text p))); cbn [List.length]; lia.
  - pose proof (paragraphs_to_text_trimmed doc) as F.
    induction (paragraphs_to_text doc) as [| q l IH]; [constructor |].
    inversion F as [| ? ? Hq Hl]; subst. constructor; [| now apply IH].
    split; [destruct Hq as (c & t & -> & _); discriminate |].
    split; [exact Hq | now apply trimmed_strip].
Qed.

(** X2.  Every record comes from a paragraph of the document with a
    non-blank text, keeps its style name, and is bold exactly when some
    run of the paragraph with non-blank text has its bold flag set to
    [True]; runs whose flag is [None] or [False] and blank runs do not
    count. *)
Theorem X2_bold_flag (doc : Doc) (p : Paragraph) :
  In p (paragraphs_to_text doc) ->
  exists dp, In dp doc /\
    nonblank (dp_text dp) /\
    p_text p = strip (dp_text dp) /\
    p_style p = dp_style_name dp /\
    (p_is_bold p = true <->
     exists r, In r (dp_runs dp) /\ nonblank (run_text r) /\ run_bold r = Some true).
Proof.
  induction doc as [| dp rest IH]; [intros [] |]. cbn [paragraphs_to_text].
  destruct (nonempty (strip (dp_text dp))) eqn:E.
  - intros [<- | H].
    + exists dp. split; [now left |]. split; [now apply nonempty_true_iff |].
      cbn [p_text p_style p_is_bold]. split; [reflexivity |]. split; [reflexivity |].
      rewrite existsb_exists. split.
      * intros (r & Hr & Hb). apply filter_In in Hr. destruct Hr as (Hr & Hn).
        exists r. split; [exact Hr |]. split; [now apply nonempty_true_iff |].
        unfold run_is_bold in Hb. destruct (run_bold r) as [[|] |]; congruence.
      * intros (r & Hr & Hn & Hb). exists r. split.
        -- apply filter_In. split; [exact Hr | now apply nonempty_true_iff].
        -- unfold run_is_bold. now rewrite Hb.
    + destruct (IH H) as (dp' & Hin & R). exists dp'. split; [now right | exact R].
  - intros H. destruct (IH H) as (dp' & Hin & R). exists dp'. split; [now right | exact R].
Qed.

Lemma X2_witness :
  exists p, paragraphs_to_text [mixed_runs] = [p] /\
            p_text p = u "Статья 1" /\ p_is_bold p = true.
Proof.
  eexists. split; [reflexivity |]. split; [vm_compute; reflexivity |].
  destruct (X2_bold_flag [mixed_runs] _ (or_introl eq_refl)) as (dp & Hin & _ & _ & _ & Hb).
  apply Hb. destruct Hin as [<- | []].
  exists {| run_text := u " 1"; run_bold := Some true |}.
  split; [right; right; left; reflexivity |]. split; [vm_compute; discriminate | reflexivity].
Defined.

(** ** The text tier *)

Lemma match_at_genuine p s adv i m :
  match_at p s adv i = Some m ->
  Matches (pat_flags p) s (pat_re p) (m_start m) (m_end m).
Proof.
  intros H. apply match_at_spec in H. destruct H as (-> & _ & _ & Hin).
  eapply ends_sound. exact Hin.
Qed.

Lemma scan_genuine p s : forall n i lo,
  Forall (fun m => Matches (pat_flags p) s (pat_re p) (m_start m) (m_end m))
         (scan p s n i lo).
Proof.
  induction n as [| n IH]; intros i lo; cbn [scan]; [constructor |].
  destruct (i <? lo); [apply IH |].
  destruct (match_at p s false i) as [m |] eqn:E1; [| apply IH].
  apply match_at_genuine in E1.
  destruct (m_end m =? i).
  - destruct (match_at p s true i) as [m' |] eqn:E2.
    + apply match_at_genuine in E2. repeat constructor; [exact E1 | exact E2 | apply IH].
    + constructor; [exact E1 | apply IH].
  - constructor; [exact E1 | apply IH].
Qed.

Lemma splitlines_aux_head : forall s cur,
  hd [] (splitlines_aux cur false s) = rev cur ++ upto_linebreak s.
Proof.
  induction s as [| c s IH]; intros cur; cbn [splitlines_aux upto_linebreak].
  - rewrite app_nil_r. destruct cur; [reflexivity |]. reflexivity.
  - cbn [andb]. destruct (is_linebreak c).
    + cbn [hd]. now rewrite app_nil_r.
    + rewrite IH. cbn [rev]. now rewrite <- app_assoc.
Qed.

(** The first line of [splitlines], or the empty string when there is none. *)
Lemma splitlines_head s : hd [] (splitlines s) = upto_linebreak s.
Proof. unfold splitlines. now rewrite splitlines_aux_head. Qed.

Lemma upto_linebreak_prefix s : exists rest, s = upto_linebreak s ++ rest.
Proof.
  induction s as [| c s (rest & IH)]; [now exists [] |]. cbn [upto_linebreak].
  destruct (is_linebreak c); [now exists (c :: s) |]. exists rest. cbn. now f_equal.
Qed.

Lemma upto_linebreak_clean s : Forall (fun c => is_linebreak c = false) (upto_linebreak s).
Proof.
  induction s as [| c s IH]; [constructor |]. cbn [upto_linebreak].
  destruct (is_linebreak c) eqn:E; [constructor | now constructor].
Qed.

(** X3.  When the alternation of the text tier compiles and matches
    somewhere in the text, [split_by_text_regex] returns one span per
    match of [finditer].  The span of a match runs from the start of the
    match, a position at which the alternation does match, to the start of
    the next match or the end of the text; its text is that part of the
    text, trimmed, its header is the beginning of its text up to the first
    line boundary, and the offsets it records lie inside the text. *)
Theorem X3_text_spans (full_text : str) (patterns : list str) (pat : Pattern) :
  re_compile (text_pattern_source patterns) re_IM = Some pat ->
  re_finditer pat full_text <> [] ->
  exists arts,
    split_by_text_regex full_text patterns = Ok (Some arts) /\
    List.length arts = List.length (re_finditer pat full_text) /\
    forall i m, nth_error (re_finditer pat full_text) i = Some m ->
      let e := nth (S i) (map m_start (re_finditer pat full_text)) (List.length full_text) in
      m_start m <= e <= List.length full_text /\
      Matches (pat_flags pat) full_text (pat_re pat) (m_start m) (m_end m) /\
      exists a, nth_error arts i = Some a /\
        a_text a = strip (slice full_text (m_start m) e) /\
        a_header a = upto_linebreak (a_text a) /\
        (exists rest, a_text a = a_header a ++ rest) /\
        Forall (fun c => is_linebreak c = false) (a_header a) /\
        recorded "start_char" a = Some (Z.of_nat (m_start m)) /\
        recorded "end_char" a = Some (Z.of_nat e).
Proof.
  intros Hc Hne. rewrite (split_by_text_regex_ok _ _ _ Hc).
  destruct (re_finditer_starts pat full_text) as (Hb & Hs).
  pose proof (scan_genuine pat full_text (S (List.length full_text)) 0 0) as Hg.
  fold (re_finditer pat full_text) in Hg.
  destruct (re_finditer pat full_text) as [| m0 ms] eqn:Em; [congruence |].
  rewrite <- Em in *. clear Hne.
  exists (text_articles full_text (map m_start (re_finditer pat full_text))).
  split; [now rewrite Em |].
  split; [now rewrite text_articles_length, length_map |].
  intros i m Hi e.
  assert (Hst : nth_error (map m_start (re_finditer pat full_text)) i = Some (m_start m))
    by (rewrite nth_error_map, Hi; reflexivity).
  assert (Hin : In m (re_finditer pat full_text)) by (eapply nth_error_In; exact Hi).
  rewrite List.Forall_forall in Hb, Hg.
  split; [| split; [now apply Hg |]].
  - split; [| unfold e].
    + destruct (nth_error (map m_start (re_finditer pat full_text)) (S i)) as [x |] eqn:Ex.
      * unfold e. rewrite (nth_error_nth_default _ _ _ (List.length full_text) Ex).
        eapply sorted_le_next; eauto.
      * apply nth_error_None in Ex. unfold e. rewrite nth_overflow_default by exact Ex.
        now apply Hb.
    + destruct (nth_error (map m_start (re_finditer pat full_text)) (S i)) as [x |] eqn:Ex.
      * rewrite (nth_error_nth_default _ _ _ (List.length full_text) Ex).
        apply nth_error_In, in_map_iff in Ex. destruct Ex as (m' & <- & Hm').
        now apply Hb.
      * apply nth_error_None in Ex. now rewrite nth_overflow_default by exact Ex.
  - destruct (text_articles_spec full_text _ i (m_start m) Hst)
      as (a & Ha & Ht & Hh & Hsc & Hec & _).
    exists a. split; [exact Ha |]. split; [exact Ht |].
    rewrite splitlines_head in Hh. split; [exact Hh |].
    split; [rewrite Hh; apply upto_linebreak_prefix |].
    split; [rewrite Hh; apply upto_linebreak_clean |]. split; [exact Hsc | exact Hec].
Qed.

Lemma X3_witness :
  exists arts,
    split_by_text_regex (full_text_of broken_headings) DEFAULT_PATTERNS = Ok (Some arts) /\
    List.length arts = 2.
Proof.
  destruct (X3_text_spans (full_text_of broken_headings) DEFAULT_PATTERNS default_text_pattern)
    as (arts & H & Hl & _).
  - vm_compute. reflexivity.
  - vm_compute. discriminate.
  - exists arts. split; [exact H |]. rewrite Hl. vm_compute. reflexivity.
Defined.

(** ** The spans of the paragraph tier *)

Lemma sorted_no_gap bs stop : Sorted lt bs ->
  forall i b k, nth_error bs i = Some b -> In k bs -> b < k -> nth (S i) bs stop <= k.
Proof.
  intros Hs. apply Sorted_StronglySorted in Hs; [| intros x y z; lia].
  induction Hs as [| a rest Hrest IH Ha]; intros i b k Hb Hk Hlt; [destruct Hk |].
  rewrite List.Forall_forall in Ha.
  destruct i as [| i]; simpl in Hb.
  - inversion Hb; subst a. destruct Hk as [-> | Hk]; [lia |].
    destruct rest as [| a' r]; [destruct Hk |]. cbn [nth].
    destruct Hk as [-> | Hk]; [lia |].
    inversion Hrest as [| ? ? _ Ha']; subst. rewrite List.Forall_forall in Ha'.
    specialize (Ha' k Hk). lia.
  - change (nth (S (S i)) (a :: rest) stop) with (nth (S i) rest stop).
    destruct Hk as [-> | Hk]; [| eapply IH; eauto].
    apply nth_error_In in Hb. specialize (Ha b Hb). lia.
Qed.

(** X4.  Each span of the paragraph tier lies inside the paragraph list
    and holds exactly one boundary paragraph, its first: the paragraph at
    [start_para] passes the boundary test and gives the header, and no
    paragraph after it up to [end_para] passes the test. *)
Theorem X4_one_boundary_per_span (paras : list Paragraph) (patterns : list str)
    (arts : list Article) :
  split_by_paragraph_markers paras patterns = Ok (Some arts) ->
  exists pat, re_compile (paragraph_pattern_source patterns) re_IM = Some pat /\
    forall a, In a arts ->
      exists s e p,
        recorded "start_para" a = Some (Z.of_nat s) /\
        recorded "end_para" a = Some (Z.of_nat e) /\
        s <= e < List.length paras /\
        nth_error paras s = Some p /\
        is_boundary pat p = true /\
        a_header a = first_line (p_text p) /\
        forall k q, s < k <= e -> nth_error paras k = Some q -> is_boundary pat q = false.
Proof.
  intros H. unfold split_by_paragraph_markers, compile_or_raise in H.
  destruct (re_compile _ _) as [pat |]; [| discriminate]. cbn [ebind] in H.
  exists pat. split; [reflexivity |].
  destruct (paragraph_articles_spec paras _ (boundaries_in_range pat paras))
    as (arts' & Ha & Hl & Hn).
  assert (arts' = arts) as ->.
  { revert H Ha. destruct (boundaries_from pat 0 paras); [discriminate |].
    intros H Ha. rewrite Ha in H. cbn in H. congruence. }
  clear H Ha. intros a Hin.
  apply In_nth_error in Hin. destruct Hin as (i & Hi).
  assert (i < List.length (boundaries_from pat 0 paras)) as Hlt
    by (rewrite <- Hl; apply nth_error_Some; congruence).
  destruct (nth_error (boundaries_from pat 0 paras) i) as [b |] eqn:Eb;
    [| apply nth_error_None in Eb; lia].
  destruct (Hn i b Eb) as (p & Hp & Hi'). rewrite Hi in Hi'. inversion Hi'; subst a.
  pose proof (sorted_next _ (List.length paras) (boundaries_from_sorted pat paras 0)
                (boundaries_in_range pat paras) i b Eb) as Hnext.
  set (e := nth (S i) (boundaries_from pat 0 paras) (List.length paras)) in *.
  exists b, (e - 1), p. split; [reflexivity |].
  split; [cbn; f_equal; lia |]. split; [lia |]. split; [exact Hp |].
  assert (Hbnd : is_boundary pat p = true).
  { assert (In b (boundaries_from pat 0 paras)) as Hb by (eapply nth_error_In; eauto).
    apply boundaries_from_iff in Hb. destruct Hb as (q & _ & Hq & Hqb).
    rewrite Nat.sub_0_r in Hq. congruence. }
  split; [exact Hbnd |]. split; [reflexivity |].
  intros k q Hk Hq. apply not_true_is_false. intros Hqb.
  assert (In k (boundaries_from pat 0 paras)) as Hkin.
  { apply boundaries_from_iff. exists q. rewrite Nat.sub_0_r. split; [lia | auto]. }
  pose proof (sorted_no_gap _ (List.length paras) (boundaries_from_sorted pat paras 0)
                i b k Eb Hkin (proj1 Hk)) as Hgap.
  fold e in Hgap. lia.
Qed.

Lemma X4_witness :
  exists arts,
    split_by_paragraph_markers (paragraphs_to_text three_articles) DEFAULT_PATTERNS
      = Ok (Some arts) /\
    Forall (fun a => exists s e, recorded "start_para" a = Some (Z.of_nat s) /\
                                 recorded "end_para" a = Some (Z.of_nat e) /\ s <= e < 6)
           arts.
Proof.
  destruct (split_by_paragraph_markers (paragraphs_to_text three_articles) DEFAULT_PATTERNS)
    as [[arts |] |] eqn:E; try (vm_compute in E; discriminate).
  exists arts. split; [reflexivity |].
  destruct (X4_one_boundary_per_span _ _ _ E) as (pat & _ & H).
  apply List.Forall_forall. intros a Ha.
  destruct (H a Ha) as (s & e & p & Hs & He & Hr & _). exists s, e. auto.
Defined.

(** ** The records of a document *)

(** The three ways in which [extract_articles_from_docx] returns. *)
Lemma extract_cases w path patterns arts :
  extract_articles_from_docx w path patterns = Ok arts ->
  exists doc, w_docs w !! path = Some doc /\
    (split_by_paragraph_markers (paragraphs_to_text doc) patterns = Ok (Some arts)
     \/ (split_by_paragraph_markers (paragraphs_to_text doc) patterns = Ok None /\
         split_by_text_regex (full_text_of doc) patterns = Ok (Some arts))
     \/ (split_by_paragraph_markers (paragraphs_to_text doc) patterns = Ok None /\
         split_by_text_regex (full_text_of doc) patterns = Ok None /\
         arts = [fallback_article (full_text_of doc)])) /\
    arts <> [].
Proof.
  intros H. destruct (w_docs w !! path) as [doc |] eqn:Ed.
  - exists doc. split; [reflexivity |]. rewrite (extract_unfold w path patterns doc Ed) in H.
    destruct (split_by_paragraph_markers (paragraphs_to_text doc) patterns) as [t1 |] eqn:E1;
      [| discriminate].
    destruct (split_by_paragraph_markers_shape _ _ _ E1) as [-> | (a & l & ->)].
    + cbn in H.
      destruct (split_by_text_regex (full_text_of doc) patterns) as [t2 |] eqn:E2;
        [| discriminate].
      destruct (split_by_text_regex_shape _ _ _ E2) as [-> | (a & l & ->)];
        cbn in H; inversion H; subst.
      * split; [right; right; auto | discriminate].
      * split; [right; left; auto | discriminate].
    + cbn in H. inversion H; subst. split; [now left | discriminate].
  - unfold extract_articles_from_docx, Document in H. rewrite Ed in H. discriminate.
Qed.

Lemma paragraph_tier_extras paras patterns arts :
  split_by_paragraph_markers paras patterns = Ok (Some arts) ->
  Forall (fun a => a_text a = strip (a_text a) /\
                   exists s e, a_extra a = [ (u "start_para", JInt s); (u "end_para", JInt e) ])
         arts.
Proof.
  intros H. unfold split_by_paragraph_markers, compile_or_raise in H.
  destruct (re_compile _ _) as [pat |]; [| discriminate]. cbn [ebind] in H.
  destruct (paragraph_articles_spec paras _ (boundaries_in_range pat paras))
    as (arts' & Ha & Hl & Hn).
  assert (arts' = arts) as ->.
  { revert H Ha. destruct (boundaries_from pat 0 paras); [discriminate |].
    intros H Ha. rewrite Ha in H. cbn in H. congruence. }
  apply List.Forall_forall. intros a Hin.
  apply In_nth_error in Hin. destruct Hin as (i & Hi).
  assert (i < List.length (boundaries_from pat 0 paras)) as Hlt
    by (rewrite <- Hl; apply nth_error_Some; congruence).
  destruct (nth_error (boundaries_from pat 0 paras) i) as [b |] eqn:Eb;
    [| apply nth_error_None in Eb; lia].
  destruct (Hn i b Eb) as (p & Hp & Hi'). rewrite Hi in Hi'. inversion Hi'; subst a.
  cbn [a_text a_extra]. split; [now rewrite strip_idempotent | eauto].
Qed.

Lemma text_articles_extras full_text : forall starts,
  Forall (fun a => a_text a = strip (a_text a) /\
                   exists s e, a_extra a = [ (u "start_char", JInt s); (u "end_char", JInt e) ])
         (text_articles full_text starts).
Proof.
  induction starts as [| st rest IH]; cbn [text_articles]; constructor; [| exact IH].
  cbn [a_text a_extra]. split; [now rewrite strip_idempotent | eauto].
Qed.

Lemma text_tier_extras full_text patterns arts :
  split_by_text_regex full_text patterns = Ok (Some arts) ->
  Forall (fun a => a_text a = strip (a_text a) /\
                   exists s e, a_extra a = [ (u "start_char", JInt s); (u "end_char", JInt e) ])
         arts.
Proof.
  intros H. unfold split_by_text_regex, compile_or_raise in H.
  destruct (re_compile _ _) as [pat |]; [| discriminate]. cbn [ebind] in H.
  destruct (re_finditer pat full_text) as [| m ms]; [discriminate |].
  assert (arts = text_articles full_text (map m_start (m :: ms))) as -> by congruence.
  apply text_articles_extras.
Qed.

Lemma full_text_trimmed doc : full_text_of doc = strip (full_text_of doc).
Proof.
  unfold full_text_of. pose proof (paragraphs_to_text_trimmed doc) as F.
  destruct (map p_text (paragraphs_to_text doc)) as [| t ts]; [reflexivity |].
  symmetry. apply trimmed_strip, join_trimmed, F.
Qed.

(** X5.  All records of one document carry the same kind of meta: either
    every record has the paragraph indices [start_para] and [end_para], or
    every record has the character offsets [start_char] and [end_char], or
    the document yields the single fallback record, whose meta is the
    [fallback] flag.  No record has any other meta key. *)
Theorem X5_meta_of_one_kind (w : World) (path : str) (patterns : list str)
    (arts : list Article) :
  extract_articles_from_docx w path patterns = Ok arts ->
  Forall (fun a => meta_keys a = [u "start_para"; u "end_para"]) arts
  \/ Forall (fun a => meta_keys a = [u "start_char"; u "end_char"]) arts
  \/ (exists r, arts = [r] /\ meta_of r = [(u "fallback", JBool true)]).
Proof.
  intros H. destruct (extract_cases _ _ _ _ H) as (doc & _ & [T1 | [(_ & T2) | (_ & _ & ->)]] & _).
  - left. eapply List.Forall_impl; [| exact (paragraph_tier_extras _ _ _ T1)].
    intros a (_ & s & e & He). unfold meta_keys, meta_of, items. rewrite He. reflexivity.
  - right. left. eapply List.Forall_impl; [| exact (text_tier_extras _ _ _ T2)].
    intros a (_ & s & e & He). unfold meta_keys, meta_of, items. rewrite He. reflexivity.
  - right. right. eexists. split; reflexivity.
Qed.

Lemma X5_witness :
  exists arts,
    extract_articles_from_docx (one_file broken_headings) (u "in/a.docx") DEFAULT_PATTERNS
      = Ok arts /\
    Forall (fun a => meta_keys a = [u "start_char"; u "end_char"]) arts.
Proof.
  destruct (extract_articles_from_docx (one_file broken_headings) (u "in/a.docx")
              DEFAULT_PATTERNS) as [arts |] eqn:E; [| vm_compute in E; discriminate].
  exists arts. split; [reflexivity |].
  destruct (X5_meta_of_one_kind _ _ _ _ E) as [H | [H | (r & -> & _)]].
  - vm_compute in E. inversion E; subst arts. inversion H as [| ? ? Hk _]; subst.
    vm_compute in Hk. discriminate.
  - exact H.
  - vm_compute in E. discriminate.
Defined.

(** X6.  The text of every record a document yields is trimmed: it has no
    white space at either end, whichever tier produced it. *)
Theorem X6_texts_are_trimmed (w : World) (path : str) (patterns : list str)
    (arts : list Article) :
  extract_articles_from_docx w path patterns = Ok arts ->
  Forall (fun a => strip (a_text a) = a_text a /\
                   (a_text a = [] \/ trimmed (a_text a))) arts.
Proof.
  intros H.
  assert (F : Forall (fun a => a_text a = strip (a_text a)) arts).
  { destruct (extract_cases _ _ _ _ H)
      as (doc & _ & [T1 | [(_ & T2) | (_ & _ & ->)]] & _).
    - eapply List.Forall_impl; [| exact (paragraph_tier_extras _ _ _ T1)].
      intros a Ha. exact (proj1 Ha).
    - eapply List.Forall_impl; [| exact (text_tier_extras _ _ _ T2)].
      intros a Ha. exact (proj1 Ha).
    - constructor; [| constructor]. apply full_text_trimmed. }
  eapply List.Forall_impl; [| exact F]. intros a Ha. cbn beta in Ha. split; [congruence |].
  destruct (a_text a) as [| c t] eqn:E; [now left |]. right.
  rewrite Ha. apply strip_trimmed. rewrite <- Ha. discriminate.
Qed.

Lemma X6_witness :
  exists arts,
    extract_articles_from_docx (one_file three_articles) (u "in/a.docx") DEFAULT_PATTERNS
      = Ok arts /\
    Forall (fun a => strip (a_text a) = a_text a) arts.
Proof.
  destruct (extract_articles_from_docx (one_file three_articles) (u "in/a.docx")
              DEFAULT_PATTERNS) as [arts |] eqn:E; [| vm_compute in E; discriminate].
  exists arts. split; [reflexivity |].
  eapply List.Forall_impl; [| exact (X6_texts_are_trimmed _ _ _ _ E)].
  intros a Ha. exact (proj1 Ha).
Defined.

(** ** Numbers and identifiers *)

(** X7.  When a header holds a numbered heading, the number of the article
    and the identifier of its record do not depend on the position of the
    article: two articles of one source file with the same such header get
    the same identifier. *)
Theorem X7_number_ignores_position (a b : Article) (i j : nat) (base source_path : str) :
  a_header a = a_header b ->
  (exists pre ds post, numbered_heading_at (a_header a) pre ds post) ->
  number_of i a = number_of j b /\
  record_id base source_path i a = record_id base source_path j b.
Proof.
  intros Hh (pre & ds & post & Hn).
  assert (E : number_of i a = number_of j b).
  { unfold number_of. rewrite <- Hh.
    destruct (re_search article_number (a_header a)) as [m |] eqn:Em; [reflexivity |].
    exfalso. apply numbered_heading_matches in Hn. destruct Hn as (Hl & k & Hm).
    eapply (re_search_none _ _ Em); [exact Hl | exact Hm]. }
  split; [exact E |]. unfold record_id, record_of. now rewrite E.
Qed.

Lemma X7_witness :
  record_id (u "a") (u "in/a.docx") 1 (nth 0 repeated_header fifth_article)
  = record_id (u "a") (u "in/a.docx") 2 (nth 1 repeated_header fifth_article).
Proof.
  apply (X7_number_ignores_position _ _ 1 2 (u "a") (u "in/a.docx")).
  - reflexivity.
  - exists [], (u "7"), (u ". Права"), (u "Статья"), (u " "), [], [].
    split; [vm_compute; reflexivity |]. split; [vm_compute; auto |].
    unfold number_after. repeat split; try discriminate. now left.
Defined.

(** ** The directory driver *)

Lemma extract_raises w path patterns e :
  extract_articles_from_docx w path patterns = Raise e -> e = LoadError \/ e = ReError.
Proof.
  unfold extract_articles_from_docx, Document.
  destruct (w_docs w !! path) as [doc |]; cbn [ebind]; [| intros H; inversion H; now left].
  assert (T1 : forall paras x, split_by_paragraph_markers paras patterns = Raise x ->
                               x = ReError).
  { intros paras x. unfold split_by_paragraph_markers, compile_or_raise.
    destruct (re_compile _ _) as [pat |]; cbn [ebind]; [| congruence].
    destruct (paragraph_articles_spec paras _ (boundaries_in_range pat paras))
      as (arts & Ha & _).
    destruct (boundaries_from pat 0 paras); [discriminate |]. rewrite Ha. discriminate. }
  assert (T2 : forall txt x, split_by_text_regex txt patterns = Raise x -> x = ReError).
  { intros txt x. unfold split_by_text_regex, compile_or_raise.
    destruct (re_compile _ _) as [pat |]; cbn [ebind]; [| congruence].
    destruct (re_finditer pat txt); discriminate. }
  destruct (split_by_paragraph_markers (paragraphs_to_text doc) patterns) as [t1 | x] eqn:E1;
    cbn [ebind]; [| intros H; inversion H; subst; right; eapply T1; eauto].
  destruct (truthy t1); [discriminate |].
  destruct (split_by_text_regex _ patterns) as [t2 | x] eqn:E2;
    cbn [ebind]; [| intros H; inversion H; subst; right; eapply T2; eauto].
  destruct (truthy t2); discriminate.
Qed.

Lemma process_file_cases p output_dir patterns w :
  (exists w' arts,
     extract_articles_from_docx w p patterns = Ok arts /\
     w_denied w (out_file_of p output_dir) = false /\
     process_file p output_dir patterns w = Ok w' /\
     1 <= List.length arts /\
     w_stdout w' = w_stdout w ++ [PrintSaved (List.length arts) (out_file_of p output_dir)] /\
     w_docs w' = w_docs w /\ w_glob w' = w_glob w /\ w_denied w' = w_denied w /\
     w_files w' = <[out_file_of p output_dir :=
                      default [] (w_files w !! out_file_of p output_dir)
                      ++ lines_from (path_stem p) p 1 arts]> (w_files w))
  \/ (exists e, process_file p output_dir patterns w = Raise e /\ e <> IndexError).
Proof.
  unfold process_file.
  destruct (extract_articles_from_docx w p patterns) as [arts | e] eqn:E; cbn [ebind].
  - unfold save_articles_jsonl, open_append.
    destruct (w_denied w (out_file_of p output_dir)) eqn:Ed; cbn [ebind].
    + right. exists WriteError. split; [reflexivity | discriminate].
    + left. eexists _, arts. split; [reflexivity |]. split; [reflexivity |].
      split; [reflexivity |]. split.
      * apply extract_cases in E. destruct E as (_ & _ & _ & Hne).
        destruct arts; [congruence | cbn; lia].
      * repeat split.
  - right. exists e. split; [reflexivity |].
    apply extract_raises in E. destruct E as [-> | ->]; discriminate.
Qed.

(** X8.  The loop of [process_dir] never stops early and never raises:
    whatever the files and patterns are, it prints for each file of the
    listing, in order, the file name and then exactly one outcome, the
    count of saved records (at least one) or the error it caught, which is
    never an [IndexError].  It changes no text file other than the output
    files of the listed inputs. *)
Theorem X8_batch_never_aborts (files : list str) (output_dir : str) (patterns : list str)
    (w : World) :
  exists w' outcomes,
    process_files files output_dir patterns w = Ok w' /\
    Forall2 file_outcome files outcomes /\
    w_stdout w' = w_stdout w ++
      flat_map (fun po => [PrintProcessing (path_name (fst po)); snd po])
               (combine files outcomes) /\
    w_docs w' = w_docs w /\
    (forall path, (forall p, In p files -> out_file_of p output_dir <> path) ->
                  w_files w' !! path = w_files w !! path).
Proof.
  revert w. induction files as [| p rest IH]; intros w.
  - exists w, []. split; [reflexivity |]. split; [constructor |]. cbn.
    rewrite app_nil_r. auto.
  - cbn [process_files].
    destruct (process_file_cases p output_dir patterns (print (PrintProcessing (path_name p)) w))
      as [(w1 & arts & _ & _ & Hp & Hn & Ho & Hd & _ & _ & Hf) | (e & Hp & He)];
      rewrite Hp.
    + destruct (IH w1) as (w' & outs & Hw & Hall & Hout & Hdocs & Hfiles).
      exists w', (PrintSaved (List.length arts) (out_file_of p output_dir) :: outs).
      split; [exact Hw |]. split.
      * constructor; [| exact Hall]. left. eauto.
      * split; [| split].
        -- rewrite Hout, Ho. cbn. rewrite <- !app_assoc. reflexivity.
        -- now rewrite Hdocs, Hd.
        -- intros path Hpath. rewrite Hfiles by (intros q Hq; apply Hpath; now right).
           rewrite Hf. cbn. apply lookup_insert_ne. apply Hpath. now left.
    + destruct (IH (print (PrintError (path_name p) e) (print (PrintProcessing (path_name p)) w)))
        as (w' & outs & Hw & Hall & Hout & Hdocs & Hfiles).
      exists w', (PrintError (path_name p) e :: outs).
      split; [exact Hw |]. split.
      * constructor; [| exact Hall]. right. eauto.
      * split; [| split].
        -- rewrite Hout. cbn. rewrite <- !app_assoc. reflexivity.
        -- now rewrite Hdocs.
        -- intros path Hpath. rewrite Hfiles by (intros q Hq; apply Hpath; now right).
           reflexivity.
Qed.

Lemma extract_succeeds w path patterns doc p1 p2 :
  w_docs w !! path = Some doc ->
  re_compile (paragraph_pattern_source patterns) re_IM = Some p1 ->
  re_compile (text_pattern_source patterns) re_IM = Some p2 ->
  exists arts, extract_articles_from_docx w path patterns = Ok arts.
Proof.
  intros Hdoc H1 H2.
  destruct (split_by_paragraph_markers_ok (paragraphs_to_text doc) patterns p1 H1)
    as (t1 & Ht1 & _).
  pose proof (split_by_text_regex_ok (full_text_of doc) patterns p2 H2) as Ht2.
  rewrite (extract_unfold w path patterns doc Hdoc), Ht1. cbn [ebind].
  destruct (truthy t1); [eauto |]. rewrite Ht2. cbn [ebind].
  match goal with |- context [truthy ?t] => destruct (truthy t) end; eauto.
Qed.

(** X9.  For a file that loads, with patterns that compile and an output
    file that can be opened, the driver appends to the output file of that
    input one line per record of the document, at least one, leaves every
    other file as it was, and reports the number of lines it wrote. *)
Theorem X9_processed_file (p output_dir : str) (patterns : list str) (w : World)
    (doc : Doc) (p1 p2 : Pattern) :
  w_docs w !! p = Some doc ->
  re_compile (paragraph_pattern_source patterns) re_IM = Some p1 ->
  re_compile (text_pattern_source patterns) re_IM = Some p2 ->
  w_denied w (out_file_of p output_dir) = false ->
  exists arts w' lines,
    extract_articles_from_docx w p patterns = Ok arts /\
    process_file p output_dir patterns w = Ok w' /\
    w_files w' !! out_file_of p output_dir
      = Some (default [] (w_files w !! out_file_of p output_dir) ++ lines) /\
    count_newlines lines = List.length arts /\
    1 <= List.length arts /\
    w_stdout w' = w_stdout w ++ [PrintSaved (List.length arts) (out_file_of p output_dir)] /\
    (forall other, other <> out_file_of p output_dir ->
                   w_files w' !! other = w_files w !! other).
Proof.
  intros Hdoc H1 H2 Hd.
  destruct (extract_succeeds w p patterns doc p1 p2 Hdoc H1 H2) as (arts0 & He).
  destruct (process_file_cases p output_dir patterns w)
    as [(w' & arts & Hex & _ & Hp & Hn & Ho & _ & _ & _ & Hf) | (e & Hp & _)].
  - exists arts, w', (lines_from (path_stem p) p 1 arts).
    split; [exact Hex |]. split; [exact Hp |]. rewrite Hf. split; [apply lookup_insert_eq |].
    split; [apply lines_from_count |]. split; [exact Hn |]. split; [exact Ho |].
    intros other Hne. now apply lookup_insert_ne.
  - exfalso. unfold process_file in Hp. rewrite He in Hp. cbn [ebind] in Hp.
    unfold save_articles_jsonl, open_append in Hp. rewrite Hd in Hp. discriminate.
Qed.

Lemma X9_witness :
  exists w', process_file (u "in/a.docx") (u "out") DEFAULT_PATTERNS (one_file three_articles)
               = Ok w' /\
             w_stdout w' = [PrintSaved 3 (u "out/a.jsonl")].
Proof.
  destruct (X9_processed_file (u "in/a.docx") (u "out") DEFAULT_PATTERNS
              (one_file three_articles) three_articles
              default_paragraph_pattern default_text_pattern)
    as (arts & w' & lines & He & Hp & _ & _ & _ & Ho & _).
  - vm_compute. reflexivity.
  - vm_compute. reflexivity.
  - vm_compute. reflexivity.
  - reflexivity.
  - exists w'. split; [exact Hp |]. rewrite Ho.
    vm_compute in He. inversion He; subst arts. vm_compute. reflexivity.
Defined.

(** ** The name of the output file *)

Lemma path_name_aux_plain : forall name cur,
  Forall (fun c => c <> ch "/") name -> path_name_aux cur name = rev cur ++ name.
Proof.
  induction name as [| c name IH]; intros cur F; cbn [path_name_aux].
  - now rewrite app_nil_r.
  - inversion F as [| ? ? Hc Hn]; subst. apply N.eqb_neq in Hc. rewrite Hc.
    rewrite IH by exact Hn. cbn [rev]. now rewrite <- app_assoc.
Qed.

Lemma path_name_aux_last : forall dir cur name,
  Forall (fun c => c <> ch "/") name ->
  path_name_aux cur (dir ++ u "/" ++ name) = name.
Proof.
  induction dir as [| c dir IH]; intros cur name F.
  - change ([] ++ u "/" ++ name) with (ch "/" :: name). cbn [path_name_aux].
    rewrite N.eqb_refl. now rewrite path_name_aux_plain.
  - change ((c :: dir) ++ u "/" ++ name) with (c :: (dir ++ u "/" ++ name)).
    cbn [path_name_aux]. destruct (c =? ch "/")%N; now apply IH.
Qed.

Lemma rfind_dot_app : forall a b i last,
  rfind_dot (a ++ b) i last = rfind_dot b (i + List.length a) (rfind_dot a i last).
Proof.
  induction a as [| c a IH]; intros b i last; cbn [app rfind_dot List.length].
  - now rewrite Nat.add_0_r.
  - rewrite IH. f_equal. lia.
Qed.

(** X10.  The records of the input file [dir/stem.docx] go to the file
    [stem.jsonl] of the output directory: the stem is the file name
    without its last suffix, whatever dots the stem itself has. *)
Theorem X10_output_file_name (dir stem out_dir : str) :
  stem <> [] ->
  Forall (fun c => c <> ch "/") stem ->
  path_name (dir ++ u "/" ++ stem ++ u ".docx") = stem ++ u ".docx" /\
  path_stem (dir ++ u "/" ++ stem ++ u ".docx") = stem /\
  out_file_of (dir ++ u "/" ++ stem ++ u ".docx") out_dir
    = out_dir ++ u "/" ++ stem ++ u ".jsonl".
Proof.
  intros Hne F.
  assert (Hname : path_name (dir ++ u "/" ++ stem ++ u ".docx") = stem ++ u ".docx").
  { unfold path_name. apply path_name_aux_last. apply Forall_app. split; [exact F |].
    repeat constructor; discriminate. }
  assert (Hstem : path_stem (dir ++ u "/" ++ stem ++ u ".docx") = stem).
  { unfold path_stem. rewrite Hname, rfind_dot_app. cbn [Nat.add].
    replace (rfind_dot (u ".docx") (List.length stem) (rfind_dot stem 0 None))
      with (Some (List.length stem)) by reflexivity.
    rewrite length_app. replace (List.length (u ".docx")) with 5 by reflexivity.
    replace (0 <? List.length stem) with true
      by (symmetry; apply Nat.ltb_lt; destruct stem; [congruence | cbn; lia]).
    replace (S (List.length stem) <? List.length stem + 5) with true
      by (symmetry; apply Nat.ltb_lt; lia).
    cbn [andb]. apply take_app_length. }
  split; [exact Hname |]. split; [exact Hstem |].
  unfold out_file_of, path_join. now rewrite Hstem.
Qed.

Lemma X10_witness :
  out_file_of (u "in/закон.v2.docx") (u "out") = u "out/закон.v2.jsonl".
Proof.
  destruct (X10_output_file_name (u "in") (u "закон.v2") (u "out")) as (_ & _ & H).
  - discriminate.
  - repeat constructor; discriminate.
  - exact H.
Defined.

(** ** What the default patterns detect *)

Lemma star_of_iff (R R' : nat -> nat -> Prop) :
  (forall i j, R i j <-> R' i j) -> forall i j, star_of R i j <-> star_of R' i j.
Proof.
  intros H i j. split; induction 1; econstructor; eauto; now apply H.
Qed.

(** The flag [re.M] changes the meaning of [^] and [$] only. *)
Lemma Matches_multiline s r :
  unanchored r = true -> forall i j, Matches re_IM s r i j <-> Matches re_I s r i j.
Proof.
  induction r as [| p | | neg items | | | pos | a IHa b IHb | a IHa b IHb | a IHa | a IHa
                 | a IHa | g a IHa]; cbn [unanchored Matches]; intros Hu i j;
    try discriminate; try reflexivity.
  - apply andb_true_iff in Hu. destruct Hu as (Ha & Hb).
    split; intros (k & H1 & H2); exists k; (split; [now apply IHa | now apply IHb]).
  - apply andb_true_iff in Hu. destruct Hu as (Ha & Hb).
    rewrite (IHa Ha), (IHb Hb). reflexivity.
  - apply star_of_iff. auto.
  - split; intros (k & H1 & H2); exists k.
    + split; [now apply IHa |]. apply (proj1 (star_of_iff _ _ (IHa Hu) k j)). exact H2.
    + split; [now apply IHa |]. apply (proj2 (star_of_iff _ _ (IHa Hu) k j)). exact H2.
  - rewrite (IHa Hu). reflexivity.
  - auto.
Qed.

Lemma default_first_pattern :
  exists rest,
    pat_flags default_paragraph_pattern = re_IM /\
    pat_re default_paragraph_pattern =
    Alt (Seq Bol
           (Seq (Group 1 (Alt (lits (u "Статья"))
                            (Alt (lits (u "СТАТЬЯ"))
                               (Alt (lits (u "Стаття")) (lits (u "Article"))))))
                (number_tail (Seq (Plus DIGIT) TERMINATOR))))
        rest.
Proof. eexists. split; reflexivity. Qed.

Lemma denotes_number_tail_then s d (Ld : str -> Prop) :
  denotes re_I s d Ld ->
  denotes re_I s (number_tail d)
    (fun w => exists ws1 no ws2 x, w = ws1 ++ no ++ ws2 ++ x /\
                ws1 <> [] /\ spaces ws1 /\ (no = [] \/ no = [numero]) /\ spaces ws2 /\ Ld x).
Proof.
  intros Hd. unfold number_tail.
  eapply denotes_ext;
    [| apply denotes_seq; [apply denotes_some_spaces |
       apply denotes_seq; [apply denotes_numero |
       apply denotes_seq; [apply denotes_spaces | exact Hd]]]].
  intros w. cbn beta. split.
  - intros (ws1 & x & -> & (N1 & S1) & no & y & -> & Hno & ws2 & z & -> & S2 & Lz).
    exists ws1, no, ws2, z. tauto.
  - intros (ws1 & no & ws2 & z & -> & N1 & S1 & Hno & S2 & Lz).
    exists ws1, (no ++ ws2 ++ z). split; [reflexivity |]. split; [tauto |].
    exists no, (ws2 ++ z). split; [reflexivity |]. split; [tauto |].
    exists ws2, z. tauto.
Qed.

Lemma terminator_class t :
  is_terminator t = true -> class_has re_I false
    [CCat CatSpace true; CChar (ch "."); CChar (ch "-"); CChar 0x2013; CChar 0x2014;
     CChar (ch ":")] t = true.
Proof.
  intros H. unfold class_has. cbn [IGNORECASE re_I xorb].
  apply orb_true_iff. left. apply orb_true_iff. left.
  unfold set_has. cbn [existsb item_has in_cat].
  unfold is_terminator in H.
  rewrite !(N.eqb_sym t) in H.
  destruct (is_space t); cbn [Bool.eqb orb] in *; [reflexivity |].
  rewrite orb_false_r. repeat rewrite <- orb_assoc in H. exact H.
Qed.

(** X11.  With the default patterns, a paragraph whose text starts with a
    keyword in any letter case, followed by at least one white space
    character, an optional "№", optional white space, a decimal number and
    then a space, dot, dash or colon, is a boundary whatever its style
    and whether it is bold or not. *)
Theorem X11_default_heading_detected (p : Paragraph) (ds rest : str) (t : N) :
  numbered_heading_at (p_text p) [] ds (t :: rest) ->
  is_terminator t = true ->
  is_boundary default_paragraph_pattern p = true /\
  forall paras b, nth_error paras b = Some p ->
                  In b (boundaries_from default_paragraph_pattern 0 paras).
Proof.
  intros (kw & ws1 & no & ws2 & Et & Lk & Hn) Ht.
  assert (Hm : matches_somewhere default_paragraph_pattern (p_text p)).
  { destruct default_first_pattern as (others & Hf & Hr).
    unfold matches_somewhere. rewrite Hf, Hr.
    set (w := kw ++ ws1 ++ no ++ ws2 ++ ds ++ [t]).
    assert (D : denotes re_I (p_text p)
                  (Seq (Group 1 (Alt (lits (u "Статья"))
                                   (Alt (lits (u "СТАТЬЯ"))
                                      (Alt (lits (u "Стаття")) (lits (u "Article"))))))
                       (number_tail (Seq (Plus DIGIT) TERMINATOR)))
                  (fun w => exists k y, w = k ++ y /\
                     (str_lower k = str_lower (u "Статья") \/
                      str_lower k = str_lower (u "СТАТЬЯ") \/
                      str_lower k = str_lower (u "Стаття") \/
                      str_lower k = str_lower (u "Article")) /\
                     exists a b c x, y = a ++ b ++ c ++ x /\
                       a <> [] /\ spaces a /\ (b = [] \/ b = [numero]) /\ spaces c /\
                       exists d e, x = d ++ e /\ (d <> [] /\ digits d) /\
                         exists z, e = [z] /\
                           class_has re_I false
                             [CCat CatSpace true; CChar (ch "."); CChar (ch "-");
                              CChar 0x2013; CChar 0x2014; CChar (ch ":")] z = true)).
    { apply denotes_seq.
      - apply denotes_group.
        apply denotes_alt; [apply denotes_lits; discriminate |].
        apply denotes_alt; [apply denotes_lits; discriminate |].
        apply denotes_alt; apply denotes_lits; discriminate.
      - apply denotes_number_tail_then.
        apply denotes_seq; [apply denotes_number | apply denotes_class]. }
    destruct (proj2 (D 0 (List.length w))) as (_ & HM).
    - exists w. split.
      + exists [], rest. split; [| split; reflexivity]. rewrite Et. unfold w. cbn [app].
        rewrite <- !app_assoc. reflexivity.
      + exists kw, (ws1 ++ no ++ ws2 ++ ds ++ [t]). split; [reflexivity |]. split.
        * unfold is_keyword_ci, keywords in Lk. cbn [In] in Lk.
          destruct Lk as [L | [L | [L | []]]]; rewrite <- L.
          -- left. reflexivity.
          -- right. right. left. reflexivity.
          -- right. right. right. reflexivity.
        * destruct Hn as (N1 & S1 & Hno & S2 & Nd & Dd).
          exists ws1, no, ws2, (ds ++ [t]). split; [reflexivity |].
          repeat (split; [assumption |]).
          exists ds, [t]. split; [reflexivity |]. split; [auto |].
          exists t. split; [reflexivity | now apply terminator_class].
    - exists 0, (List.length w). split; [lia |]. left. exists 0. split.
      + split; reflexivity.
      + apply Matches_multiline; [reflexivity | exact HM]. }
  assert (Hb : is_boundary default_paragraph_pattern p = true).
  { unfold is_boundary. apply re_search_found in Hm. rewrite Hm.
    destruct (style_has_heading p && _); [reflexivity |].
    destruct (p_is_bold p && _); reflexivity. }
  split; [exact Hb |]. intros paras b Hp. apply boundaries_from_iff.
  exists p. rewrite Nat.sub_0_r. split; [lia | auto].
Qed.

Lemma X11_witness :
  is_boundary default_paragraph_pattern plain_heading = true.
Proof.
  apply (X11_default_heading_detected plain_heading (u "12") (u " Права") (ch ":")).
  - exists (u "СТАТЬЯ"), (u " "), [numero], (u " ").
    split; [vm_compute; reflexivity |]. split; [vm_compute; auto |].
    unfold number_after. repeat split; try discriminate. now right.
  - reflexivity.
Defined.
